(** * daily-news-analyst: the ingestion pipeline of [src/ingest.py] and
      [src/main.py], embedded and verified.

    The development follows the program: Python strings and the two
    canonicalizers, the stable sort, the deduplicator and ranker, the
    enricher and the orchestrator over a store of shared dictionaries and
    list objects, the NewsAPI and New York Times adapters over a JSON
    value type, the list of approved sources of [src/config.py] and the
    sections of the email of [src/emailer.py]. *)

From Stdlib Require Import ZArith Ascii String.
From stdpp Require Import base tactics option list functions gmap strings sorting.

(** ** Python strings

    A [str] is the sequence of its code points.  Characters are the code
    points U+0000 to U+00FF; on that range [lower_char] and [is_space] are
    exactly [str.lower] and the set [str.strip] removes. *)

Definition str := list ascii.

Definition lit (s : string) : str := String.list_ascii_of_string s.

Definition code (c : ascii) : N := N_of_ascii c.

Definition between (lo hi : N) (c : ascii) : bool :=
  ((lo <=? code c) && (code c <=? hi))%N.

Definition is_upper (c : ascii) : bool :=
  between 65 90 c || between 192 214 c || between 216 222 c.

Definition lower_char (c : ascii) : ascii :=
  if is_upper c then ascii_of_N (code c + 32) else c.

(** [s.lower()] *)
Definition lower (s : str) : str := map lower_char s.

(** the characters [str.strip()] removes *)
Definition is_space (c : ascii) : bool :=
  between 9 13 c || between 28 32 c || (code c =? 133)%N || (code c =? 160)%N.

(** [s.lstrip(chars)], the set [chars] given by its membership test *)
Fixpoint lstrip (p : ascii -> bool) (s : str) : str :=
  match s with
  | [] => []
  | c :: r => if p c then lstrip p r else s
  end.

(** [s.rstrip(chars)] *)
Definition rstrip (p : ascii -> bool) (s : str) : str :=
  reverse (lstrip p (reverse s)).

(** [s.strip()] *)
Definition strip (s : str) : str := rstrip is_space (lstrip is_space s).

(** [len(s)] as a Python integer *)
Definition len {A} (l : list A) : Z := Z.of_nat (length l).

(** [l[:i]], with Python's reading of a negative bound *)
Definition slice_to {A} (l : list A) (i : Z) : list A :=
  if (0 <=? i)%Z then take (Z.to_nat i) l
  else take (Z.to_nat (len l + i)) l.

(** [s.startswith(pre)] *)
Fixpoint startswith (s pre : str) {struct pre} : bool :=
  match pre, s with
  | [], _ => true
  | _ :: _, [] => false
  | p :: pre', c :: s' => bool_decide (c = p) && startswith s' pre'
  end.

(** [s.endswith(suf)] *)
Definition endswith (s suf : str) : bool :=
  startswith (reverse s) (reverse suf).

(** [sub in s] *)
Fixpoint contains (sub s : str) : bool :=
  startswith s sub ||
  match s with
  | [] => false
  | _ :: s' => contains sub s'
  end.

(** [c in s] for a single character *)
Definition has_char (c : ascii) (s : str) : bool := existsb (λ x, bool_decide (x = c)) s.

(** The longest prefix of [s] free of characters in [p], and the rest: the
    rest is empty or starts with the first character of [s] in [p].  With
    [i = s.find(c)] this is [(s[:i], s[i:])], and [(s, "")] when [i = -1]. *)
Fixpoint break_on (p : ascii -> bool) (s : str) : str * str :=
  match s with
  | [] => ([], [])
  | c :: r => if p c then ([], s) else let '(a, b) := break_on p r in (c :: a, b)
  end.

Definition is_char (c : ascii) : ascii -> bool := λ x, bool_decide (x = c).

(** [s.partition(c)]: around the first [c]; [(s, False, "")] without one *)
Definition partition (c : ascii) (s : str) : str * bool * str :=
  match break_on (is_char c) s with
  | (a, _ :: b) => (a, true, b)
  | (a, []) => (a, false, [])
  end.

(** [s.rpartition(c)[2]]: what follows the last [c]; [s] without one *)
Fixpoint after_last (c : ascii) (s : str) : option str :=
  match s with
  | [] => None
  | x :: r =>
      match after_last c r with
      | Some t => Some t
      | None => if bool_decide (x = c) then Some r else None
      end
  end.

Definition rpartition_tail (c : ascii) (s : str) : str := default s (after_last c s).

(** ** [urllib.parse.urlparse]

    The URL canonicalizer calls CPython's [urlparse]; this is its code
    (CPython 3.11, [Lib/urllib/parse.py]) on [str] arguments, the cache and
    the bytes coercion left out.  [_check_bracketed_host] decides by a
    regular expression and by the [ipaddress] module whether a bracketed
    host is an IPvFuture or IPv6 literal; it enters as the parameter
    [bracketed_host_ok].  [_checknetloc] only rejects a netloc whose NFKC
    normal form contains one of the characters /?#@: and it did not, which
    no code point up to U+00FF brings about. *)

Inductive exn :=
  | ValueError
  | AttributeError
  | TypeError
  | RequestException.

Inductive result (A : Type) :=
  | Ok (a : A)
  | Raise (e : exn).
Arguments Ok {A} a.
Arguments Raise {A} e.

Definition is_alpha_ascii (c : ascii) : bool := between 65 90 c || between 97 122 c.

(** [c in scheme_chars]: letters, digits and "+-." *)
Definition is_scheme_char (c : ascii) : bool :=
  is_alpha_ascii c || between 48 57 c ||
  bool_decide (c = "+"%char) || bool_decide (c = "-"%char) || bool_decide (c = "."%char).

(** [_WHATWG_C0_CONTROL_OR_SPACE] *)
Definition is_c0_or_space (c : ascii) : bool := (code c <=? 32)%N.

(** [_UNSAFE_URL_BYTES_TO_REMOVE] *)
Definition is_unsafe_byte (c : ascii) : bool :=
  (code c =? 9)%N || (code c =? 13)%N || (code c =? 10)%N.

Definition is_netloc_delim (c : ascii) : bool :=
  bool_decide (c = "/"%char) || bool_decide (c = "?"%char) || bool_decide (c = "#"%char).

Definition uses_params : list str :=
  map lit [""; "ftp"; "hdl"; "prospero"; "http"; "imap"; "https"; "shttp"; "rtsp";
           "rtspu"; "sip"; "sips"; "mms"; "sftp"; "tel"].

(** [url.split(c, 1)[0]] when [c in url], else [url] *)
Definition before_first (c : ascii) (url : str) : str := fst (break_on (is_char c) url).

(** The scheme and what follows its colon.  [i = url.find(':')], and the
    scheme is [url[:i].lower()] when [i > 0], [url[0]] is an ASCII letter
    and every character of [url[:i]] is a scheme character. *)
Definition split_scheme (url : str) : str * str :=
  match break_on (is_char ":"%char) url with
  | (c0 :: pre, _ :: rest) =>
      if is_alpha_ascii c0 && forallb is_scheme_char (c0 :: pre)
      then (lower (c0 :: pre), rest)
      else ([], url)
  | _ => ([], url)
  end.

(** [_splitparams(url)[0]] *)
Definition splitparams (url : str) : str :=
  match after_last "/"%char url with
  | Some tail =>
      (* i = url.find(';', url.rfind('/')) *)
      match break_on (is_char ";"%char) tail with
      | (_, []) => url
      | (a, _ :: _) => take (length url - length tail + length a) url
      end
  | None =>
      match break_on (is_char ";"%char) url with
      | (a, _ :: _) => a
      | (_, []) => slice_to url (-1)
      end
  end.

Section UrlParse.
Variable bracketed_host_ok : str -> bool.

(** [_check_bracketed_netloc]: [true] when it returns, [false] when it raises *)
Definition check_bracketed_netloc (netloc : str) : bool :=
let hostname_and_port := rpartition_tail "@"%char netloc in
match partition "["%char hostname_and_port with
| (before_bracket, true, bracketed) =>
  match before_bracket with
  | _ :: _ => false
  | [] =>
      let '(hostname, _, port) := partition "]"%char bracketed in
      match port with
      | c :: _ =>
          if bool_decide (c = ":"%char) then bracketed_host_ok hostname else false
      | [] => bracketed_host_ok hostname
      end
  end
| (_, false, _) =>
  let '(hostname, _, _) := partition ":"%char hostname_and_port in
  bracketed_host_ok hostname
end.

(** [urlsplit(url)]: scheme, netloc and path (query and fragment are cut
off and not used by the caller) *)
Definition urlsplit (url : str) : result (str * str * str) :=
let url := lstrip is_c0_or_space url in
let url := filter (λ c, negb (is_unsafe_byte c)) url in
let '(scheme, url) := split_scheme url in
let finish (netloc url : str) :=
let url := before_first "#"%char url in
let url := before_first "?"%char url in
Ok (scheme, netloc, url) in
if startswith url (lit "//") then
(* _splitnetloc(url, 2) *)
let '(netloc, url) := break_on is_netloc_delim (drop 2 url) in
let ob := has_char "["%char netloc in
let cb := has_char "]"%char netloc in
if (ob && negb cb) || (cb && negb ob) then Raise ValueError
else if ob && cb && negb (check_bracketed_netloc netloc) then Raise ValueError
else finish netloc url
else finish [] url.

(** [urlparse(url)]: scheme, netloc and path, the params cut off the path *)
Definition urlparse (url : str) : result (str * str * str) :=
match urlsplit url with
| Ok (scheme, netloc, url) =>
  if bool_decide (scheme ∈ uses_params) && has_char ";"%char url
  then Ok (scheme, netloc, splitparams url)
  else Ok (scheme, netloc, url)
| Raise e => Raise e
end.

(** ** The canonicalizers ([ingest.py], [normalize_url], [normalize_title]) *)

Definition normalize_url (url : str) : str :=
match urlparse url with
| Ok (scheme, netloc, path) => scheme ++ lit "://" ++ netloc ++ path
| Raise _ => url
end.

End UrlParse.

Definition suffixes : list str :=
  map lit [" - The Verge"; " | TechCrunch"; " | Ars Technica"; " | Wired"; " | Engadget"].

(** the loop over [suffixes], left at the first suffix that matches *)
Fixpoint strip_suffix (sufs : list str) (normalized : str) : str :=
  match sufs with
  | [] => normalized
  | suffix :: rest =>
      if endswith normalized suffix
      then slice_to normalized (- len suffix)
      else strip_suffix rest normalized
  end.

Definition normalize_title (title : str) : str :=
  strip (lower (strip_suffix suffixes title)).

(** ** Stable sort

    [list.sort(key=..., reverse=True)] orders by descending key and keeps
    records with equal keys in their original order.  A stable sort is
    determined by that, so insertion into a sorted list stands for
    CPython's merge sort: an element goes behind the elements with a
    strictly greater key and in front of all others. *)

Section Sort.
Context {A K : Type} (lt : K -> K -> bool) (key : A -> K).

Fixpoint insert_desc (x : A) (l : list A) : list A :=
match l with
| [] => [x]
| y :: l' => if lt (key x) (key y) then y :: insert_desc x l' else x :: l
end.

Definition sort_desc (l : list A) : list A := foldr insert_desc [] l.
End Sort.

(** comparison of Python pairs of integers *)
Definition pair_ltb (a b : Z * Z) : bool :=
  ((a.1 <? b.1) || ((a.1 =? b.1) && (a.2 <? b.2)))%Z.

(** ** Article records

    An article is a Python dictionary with the keys the adapters set;
    [priority_score] and [fulltext] are absent ([None]) until the ranker
    and the enricher set them.  [published_at] is an aware datetime,
    counted in microseconds from [datetime.min] in UTC, or Python's
    [None]. *)

Record Article := mkArticle {
  title : str;
  url : str;
  source : str;
  published_at : option Z;
  description : str;
  content : str;
  source_type : str;
  priority_score : option Z;
  fulltext : option str
}.

Definition set_priority_score (v : Z) (a : Article) : Article :=
  mkArticle (title a) (url a) (source a) (published_at a) (description a)
            (content a) (source_type a) (Some v) (fulltext a).

Definition set_fulltext (v : str) (a : Article) : Article :=
  mkArticle (title a) (url a) (source a) (published_at a) (description a)
            (content a) (source_type a) (priority_score a) (Some v).

(** [datetime.min.replace(tzinfo=timezone.utc)] *)
Definition datetime_min : Z := 0.

(** [x.get("published_at") or datetime.min.replace(tzinfo=timezone.utc)] *)
Definition date_key (a : Article) : Z := default datetime_min (published_at a).

(** [(x.get("priority_score", 0), x.get("published_at") or datetime.min...)] *)
Definition rank_key (a : Article) : Z * Z :=
  (default 0%Z (priority_score a), date_key a).

Definition priority_keywords : list str :=
  map lit
    ["politics"; "election"; "government"; "president"; "congress"; "senate";
     "world"; "global"; "international"; "foreign"; "diplomacy"; "trade";
     "technology"; "science"; "innovation"; "AI"; "artificial intelligence";
     "climate"; "economy"; "business"; "finance"; "market"; "trade";
     "breaking"; "urgent"; "crisis"; "emergency"; "important"; "major"].

(** [sum(1 for keyword in keywords if keyword in title_lower)] *)
Definition count_keywords (keywords : list str) (title_lower : str) : Z :=
  len (filter (λ keyword, Is_true (contains keyword title_lower)) keywords).

Definition score_title (t : str) : Z := count_keywords priority_keywords (lower t).

(** ** The store

    Dictionaries and lists are shared mutable objects: a record is a
    reference into [dicts], a list object a reference into [lists], and the
    list objects below [next_list] are the allocated ones.  [fetched] logs
    the URL of every call of [extract_fulltext], oldest first, and [slept]
    counts the calls of [time.sleep]. *)

Definition ref := nat.
Definition lref := nat.

Record state := mkState {
  dicts : ref -> Article;
  lists : lref -> list ref;
  next_list : lref;
  fetched : list str;
  slept : nat
}.

Definition M (A : Type) : Type := state -> A * state.

#[global] Instance M_ret : MRet M := λ A a s, (a, s).
#[global] Instance M_bind : MBind M := λ A B f m s, let '(a, s') := m s in f a s'.

Definition get_dict (r : ref) : M Article := λ s, (dicts s r, s).

Definition set_dict (r : ref) (a : Article) : M unit := λ s,
  ((), mkState (<[r := a]> (dicts s)) (lists s) (next_list s) (fetched s) (slept s)).

Definition get_list (l : lref) : M (list ref) := λ s, (lists s l, s).

Definition set_list (l : lref) (v : list ref) : M unit := λ s,
  ((), mkState (dicts s) (<[l := v]> (lists s)) (next_list s) (fetched s) (slept s)).

(** a new list object holding [v] *)
Definition new_list (v : list ref) : M lref := λ s,
  (next_list s,
   mkState (dicts s) (<[next_list s := v]> (lists s)) (S (next_list s)) (fetched s) (slept s)).

(** [l.append(r)] *)
Definition append (l : lref) (r : ref) : M unit :=
  v ← get_list l; set_list l (v ++ [r]).

(** [l.sort(key=lambda x: key(x), reverse=True)], in place *)
Definition sort_list {K} (lt : K -> K -> bool) (key : Article -> K) (l : lref) : M unit :=
  λ s, set_list l (sort_desc lt (λ r, key (dicts s r)) (lists s l)) s.

(** [time.sleep(0.1)] *)
Definition sleep : M unit := λ s,
  ((), mkState (dicts s) (lists s) (next_list s) (fetched s) (S (slept s))).

(** [for x in xs: acc = body(acc, x)] *)
Fixpoint for_each {X B} (xs : list X) (body : B -> X -> M B) (acc : B) : M B :=
  match xs with
  | [] => mret acc
  | x :: xs' => acc' ← body acc x; for_each xs' body acc'
  end.

(** the records a list object holds *)
Definition read (s : state) (l : lref) : list Article := map (dicts s) (lists s l).

Section Pipeline.
Variable bracketed_host_ok : str -> bool.

(** What the [n]-th call of [extract_fulltext] returns for a URL: the
text that [trafilatura] extracted, stripped, or [None].  The function
catches every exception of the fetch and returns [None] then. *)
Variable extract_result : nat -> str -> option str.

Definition extract_fulltext (u : str) : M (option str) := λ s,
(extract_result (length (fetched s)) u,
 mkState (dicts s) (lists s) (next_list s) (fetched s ++ [u]) (slept s)).

(** *** Deduplicator and ranker ([ingest.py], [normalize_and_dedupe]) *)

(** the body of the loop over [items]; the two sets are the loop's state *)
Definition dedupe_item (deduplicated : lref) (seen : gset str * gset str) (item : ref)
: M (gset str * gset str) :=
let '(seen_urls, seen_titles) := seen in
a ← get_dict item;
let normalized_url := normalize_url bracketed_host_ok (url a) in
let normalized_title := normalize_title (title a) in
if decide (normalized_url ∈ seen_urls) then mret seen
else if decide (normalized_title ∈ seen_titles) then mret seen
else
let title_lower := lower (title a) in
let score := count_keywords priority_keywords title_lower in
_ ← set_dict item (set_priority_score score a);
_ ← append deduplicated item;
mret ({[normalized_url]} ∪ seen_urls, {[normalized_title]} ∪ seen_titles).

Definition normalize_and_dedupe (items : lref) : M lref :=
deduplicated ← new_list [];
_ ← sort_list Z.ltb date_key items;
xs ← get_list items;
_ ← for_each xs (dedupe_item deduplicated) (∅, ∅);
_ ← sort_list pair_ltb rank_key deduplicated;
mret deduplicated.

(** *** Content enricher ([ingest.py], [enrich_with_text]) *)

(** a Python string is true when it is not empty *)
Definition truthy (x : str) : bool := negb (bool_decide (x = [])).

Definition long_enough (min_chars : Z) (x : str) : bool :=
truthy x && (min_chars <? len x)%Z.

(** the fallback chain for one record *)
Definition resolve_fulltext (min_chars : Z) (a : Article) : M str :=
if long_enough min_chars (content a) then mret (content a)
else if long_enough min_chars (description a) then mret (description a)
else
extracted ← extract_fulltext (url a);
match extracted with
| Some text =>
    if long_enough min_chars text then mret text
    else if truthy (description a) then mret (description a)
    else mret []
| None => if truthy (description a) then mret (description a) else mret []
end.

(** the body of the loop over [items] *)
Definition enrich_item (min_chars : Z) (enriched : lref) (_ : unit) (item : ref) : M unit :=
a ← get_dict item;
text ← resolve_fulltext min_chars a;
_ ← (if truthy text
   then _ ← set_dict item (set_fulltext text a); append enriched item
   else mret ());
sleep.

Definition enrich_with_text (items : lref) (min_chars : Z) : M lref :=
enriched ← new_list [];
xs ← get_list items;
_ ← for_each xs (enrich_item min_chars enriched) ();
mret enriched.

(** *** Orchestrator ([main.py], [process_articles])

The second sort's key is
[x.get("published_at") or datetime.min.replace(tzinfo=datetime.utc)]:
the class [datetime] has no attribute [utc], so the key raises
[AttributeError] at a record without [published_at]. *)

Definition orchestrator_key (a : Article) : result Z :=
match published_at a with
| Some t => Ok t
| None => Raise AttributeError
end.

(** the keys of a list, computed in order; the first failure raises *)
Fixpoint all_keys (l : list Article) : result (list Z) :=
match l with
| [] => Ok []
| a :: l' =>
  match orchestrator_key a with
  | Ok k =>
      match all_keys l' with
      | Ok ks => Ok (k :: ks)
      | Raise e => Raise e
      end
  | Raise e => Raise e
  end
end.

(** lines 76 to 88: dedupe and rank, sort again by date, keep at most
[max_articles]; the result is the list handed to the enricher *)
Definition select_articles (articles : lref) (max_articles : Z)
: state -> result (lref * state) := λ s,
let '(deduplicated, s) := normalize_and_dedupe articles s in
match all_keys (read s deduplicated) with
| Raise e => Raise e
| Ok _ =>
  let '(_, s) := sort_list Z.ltb date_key deduplicated s in
  if (max_articles <? len (lists s deduplicated))%Z
  then Ok (new_list (slice_to (lists s deduplicated) max_articles) s)
  else Ok (deduplicated, s)
end.

(** lines 76 to 96: the list of enriched records.  The summaries that the
function attaches afterwards come from the summarizer, an external
collaborator, and change neither the list nor a [fulltext]. *)
Definition process_articles (articles : lref) (max_articles min_chars : Z)
: state -> result (lref * state) := λ s,
match select_articles articles max_articles s with
| Raise e => Raise e
| Ok (deduplicated, s) =>
  let '(enriched, s) := enrich_with_text deduplicated min_chars s in
  match lists s enriched with
  | [] => Ok (new_list [] s)
  | _ :: _ => Ok (enriched, s)
  end
end.

End Pipeline.

(** ** The NewsAPI adapter ([ingest.py], [fetch_newsapi_articles]) *)

Module Adapter.

(** a value of [response.json()] *)
#[local] Set Warnings "-register-all".
Inductive json :=
  | JNull
  | JBool (b : bool)
  | JNum (n : Z)
  | JStr (s : str)
  | JList (l : list json)
  | JDict (kv : list (str * json)).

(** what [requests.get(url, params=params, timeout=30)] brings: an
    exception of the request, or a response with its status code and its
    body, [None] when the body is not JSON *)
Inductive http_reply :=
  | NetworkError
  | Reply (status : Z) (body : option json).

(** a record as the adapter builds it; [url] and the source name are
    whatever the payload holds there *)
Record fetched_article := mkFetched {
  f_title : str;
  f_url : json;
  f_source : json;
  f_published_at : option Z;
  f_description : str;
  f_content : str;
  f_source_type : str
}.

Fixpoint lookup_key (key : str) (kv : list (str * json)) : option json :=
  match kv with
  | [] => None
  | (k, v) :: kv' => if decide (k = key) then Some v else lookup_key key kv'
  end.

(** [v.get(key, dflt)]: only a dictionary has the method *)
Definition py_get (v : json) (key : string) (dflt : json) : result json :=
  match v with
  | JDict kv => Ok (default dflt (lookup_key (lit key) kv))
  | _ => Raise AttributeError
  end.

(** [v.strip()]: only a string has the method *)
Definition py_strip (v : json) : result str :=
  match v with
  | JStr s => Ok (strip s)
  | _ => Raise AttributeError
  end.

(** [bool(v)] *)
Definition py_truth (v : json) : bool :=
  match v with
  | JNull => false
  | JBool b => b
  | JNum n => negb (n =? 0)%Z
  | JStr s => truthy s
  | JList l => negb (bool_decide (l = []))
  | JDict kv => negb (bool_decide (kv = []))
  end.

(** [for x in v]: the elements of a list, the keys of a dictionary, the
    characters of a string; nothing else is iterable *)
Definition py_iter (v : json) : result (list json) :=
  match v with
  | JList l => Ok l
  | JDict kv => Ok (map (λ p, JStr p.1) kv)
  | JStr s => Ok (map (λ c, JStr [c]) s)
  | _ => Raise TypeError
  end.

(** [s.replace("Z", "+00:00")] *)
Definition replace_Z (s : str) : str :=
  flat_map (λ c, if bool_decide (c = "Z"%char) then lit "+00:00" else [c]) s.

#[global] Instance result_ret : MRet result := λ A a, Ok a.

#[global] Instance result_bind : MBind result := λ A B f m,
  match m with
  | Ok a => f a
  | Raise e => Raise e
  end.

Fixpoint map_result {A B} (f : A -> result B) (l : list A) : result (list B) :=
  match l with
  | [] => Ok []
  | x :: l' => y ← f x; ys ← map_result f l'; Ok (y :: ys)
  end.

Section Fetch.
(** [datetime.fromisoformat], [None] where it raises [ValueError] *)
Variable fromisoformat : str -> option Z.
(** [datetime.now(timezone.utc)] *)
Variable now : Z.

(** the parse of [publishedAt] in the loop *)
Definition parse_published_at (article : json) : result (option Z) :=
p ← py_get article "publishedAt" JNull;
if py_truth p then
match p with
| JStr s => Ok (Some (default now (fromisoformat (replace_Z s))))
| _ => Raise AttributeError
end
else Ok None.

(** the body of the loop over [data.get("articles", [])] *)
Definition build_article (article : json) : result fetched_article :=
published_at ← parse_published_at article;
t ← py_get article "title" (JStr []);
t ← py_strip t;
u ← py_get article "url" (JStr []);
src ← py_get article "source" (JDict []);
name ← py_get src "name" (JStr (lit "Unknown"));
d ← py_get article "description" (JStr []);
d ← py_strip d;
c ← py_get article "content" (JStr []);
c ← py_strip c;
Ok (mkFetched t u name published_at d c (lit "newsapi")).

(** [fetch_newsapi_articles(query)] for the configured key [CFG.NEWSAPI_KEY]
and the reply to its one request.  The [except] clause catches
[requests.RequestException] only: a failed request, an HTTP error
status ([raise_for_status]) and a body that is not JSON.  The query and
the approved sources only enter the request. *)
Definition fetch_newsapi_articles (newsapi_key : str) (reply : http_reply)
: result (list fetched_article) :=
if negb (truthy newsapi_key) then Ok []
else
match reply with
| NetworkError => Ok []
| Reply status body =>
    if ((400 <=? status) && (status <? 600))%Z then Ok []
    else
      match body with
      | None => Ok []
      | Some data =>
          st ← py_get data "status" JNull;
          match st with
          | JStr s =>
              if bool_decide (s = lit "ok") then
                arts ← py_get data "articles" (JList []);
                items ← py_iter arts;
                map_result build_article items
              else Ok []
          | _ => Ok []
          end
      end
end.

End Fetch.

(** a reply as NewsAPI sends it for an article without description *)
Definition article_without_description : json :=
  JDict [(lit "source", JDict [(lit "id", JNull); (lit "name", JStr (lit "BBC News"))]);
         (lit "title", JStr (lit "Budget vote"));
         (lit "description", JNull);
         (lit "url", JStr (lit "https://www.bbc.co.uk/news/1"));
         (lit "publishedAt", JStr (lit "2024-05-01T10:00:00Z"));
         (lit "content", JNull)].

Definition reply_with_null_description : http_reply :=
  Reply 200 (Some (JDict [(lit "status", JStr (lit "ok"));
                          (lit "totalResults", JNum 1);
                          (lit "articles", JList [article_without_description])])).

End Adapter.

(** ** The New York Times adapter ([ingest.py], [fetch_nyt_articles]) *)

Module NytAdapter.
Import Adapter.

Section Fetch.
(** [datetime.fromisoformat], [None] where it raises [ValueError] *)
Variable fromisoformat : str -> option Z.
(** [datetime.now(timezone.utc)] *)
Variable now : Z.

(** the parse of [pub_date] in the loop *)
Definition parse_pub_date (doc : json) : result (option Z) :=
p ← py_get doc "pub_date" JNull;
if py_truth p then
match p with
| JStr s => Ok (Some (default now (fromisoformat (replace_Z s))))
| _ => Raise AttributeError
end
else Ok None.

(** the body of the loop over [data.get("response", {}).get("docs", [])] *)
Definition build_article (doc : json) : result fetched_article :=
published_at ← parse_pub_date doc;
headline ← py_get doc "headline" (JDict []);
t ← py_get headline "main" (JStr []);
t ← py_strip t;
u ← py_get doc "web_url" (JStr []);
d ← py_get doc "abstract" (JStr []);
d ← py_strip d;
c ← py_get doc "lead_paragraph" (JStr []);
c ← py_strip c;
Ok (mkFetched t u (JStr (lit "The New York Times")) published_at d c (lit "nyt_api")).


End Fetch.


End NytAdapter.

(** ** Configuration ([config.py])

    [APPROVED_SOURCES] is read from the environment as a comma-separated
    string; the NewsAPI adapter joins the parsed list with commas again
    for its [sources] parameter. *)

(** [s.split(sep)] for a separator of one character *)
Fixpoint split (sep : ascii) (s : str) : list str :=
  match s with
  | [] => [[]]
  | c :: r =>
      if bool_decide (c = sep) then [] :: split sep r
      else match split sep r with
           | field :: fields => (c :: field) :: fields
           | [] => [[c]]
           end
  end.

(** [sep.join(l)] *)
Fixpoint join (sep : str) (l : list str) : str :=
  match l with
  | [] => []
  | [x] => x
  | x :: r => x ++ sep ++ join sep r
  end.

(** [Config._parse_approved_sources], as a function of the value of the
    environment variable (the empty string when it is not set) *)
Definition _parse_approved_sources (sources_str : str) : list str :=
  if negb (truthy sources_str) then []
  else
    map strip (filter (λ s, Is_true (truthy (strip s))) (split ","%char sources_str)).

(** an entry as the parser returns it: not empty, stripped, without comma *)
Definition source_id (x : str) : Prop :=
  x ≠ [] ∧ strip x = x ∧ has_char ","%char x = false.

(** ** The sections of the email ([emailer.py], [categorize_articles])

    The records that reach the emailer may carry a [summary]; a
    dictionary of lists keeps its keys in the order of their insertion
    and is an association list here. *)

Record summarized := mkSummarized {
  art : Article;
  summary : option str
}.

Definition chip_keywords : list str :=
  map lit ["chip"; "gpu"; "cpu"; "processor"; "hardware"; "nvidia"; "amd"; "intel";
           "semiconductor"].

Definition policy_keywords : list str :=
  map lit ["regulation"; "policy"; "law"; "government"; "fcc"; "ftc"; "congress"; "senate";
           "legislation"].

Definition big_model_keywords : list str :=
  map lit ["gpt"; "llm"; "openai"; "anthropic"; "google"; "meta"; "microsoft";
           "large language model"; "foundation model"].

(** [any(keyword in text for keyword in keywords)] *)
Definition any_in (keywords : list str) (text : str) : bool :=
  existsb (λ keyword, contains keyword text) keywords.

(** [categories[k].append(article)], for a key the dictionary has *)
Fixpoint append_to (k : str) (article : summarized)
    (categories : list (str * list summarized)) : list (str * list summarized) :=
  match categories with
  | [] => []
  | (k', v) :: rest =>
      if decide (k' = k) then (k', v ++ [article]) :: rest
      else (k', v) :: append_to k article rest
  end.

(** [title_lower + " " + summary_lower] *)
Definition text_to_check (article : summarized) : str :=
  let title_lower := lower (title (art article)) in
  let summary_lower := lower (default [] (summary article)) in
  title_lower ++ lit " " ++ summary_lower.

(** the body of the loop over [articles] *)
Definition categorize_item (categories : list (str * list summarized))
    (article : summarized) : list (str * list summarized) :=
  if any_in chip_keywords (text_to_check article)
  then append_to (lit "Chips & Hardware") article categories
  else if any_in policy_keywords (text_to_check article)
  then append_to (lit "Policy & Regulation") article categories
  else if any_in big_model_keywords (text_to_check article)
  then append_to (lit "Big Models & Platforms") article categories
  else append_to (lit "General Tech/AI") article categories.

Definition categorize_articles (articles : list summarized)
  : list (str * list summarized) :=
  let categories :=
    [(lit "Chips & Hardware", []); (lit "Policy & Regulation", []);
     (lit "Big Models & Platforms", []); (lit "General Tech/AI", [])] in
  let categories := foldl categorize_item categories articles in
  filter (λ kv, kv.2 ≠ []) categories.

(** the section an article goes to *)
Definition section_of (article : summarized) : str :=
  if any_in chip_keywords (text_to_check article) then lit "Chips & Hardware"
  else if any_in policy_keywords (text_to_check article) then lit "Policy & Regulation"
  else if any_in big_model_keywords (text_to_check article) then lit "Big Models & Platforms"
  else lit "General Tech/AI".

(** the four sections in the order of the dictionary *)
Definition section_names : list str :=
  [lit "Chips & Hardware"; lit "Policy & Regulation"; lit "Big Models & Platforms";
   lit "General Tech/AI"].

(** ** Predicates of the proofs *)

(** [b] is empty or starts with a character of [p] *)
Definition starts_in (p : ascii -> bool) (b : str) : Prop :=
  match b with
  | [] => True
  | c :: _ => p c = true
  end.

(** what [splitparams] leaves unchanged: no semicolon behind the last slash *)
Definition no_params (x : str) : Prop :=
  match after_last "/"%char x with
  | Some tail => has_char ";"%char tail = false
  | None => has_char ";"%char x = false
  end.

(** a scheme as [split_scheme] returns it: scheme characters after an
    ASCII letter, in lower case *)
Definition wf_scheme (sch : str) : Prop :=
  ∃ c0 pre, sch = c0 :: pre ∧ is_alpha_ascii c0 = true ∧
            Forall (λ c, is_scheme_char c = true) sch ∧
            Forall (λ c, is_upper c = false) sch.

(** free of the characters [urlsplit] removes *)
Definition safe (s : str) : Prop := Forall (λ c, is_unsafe_byte c = false) s.

(** what netloc and path of a parsed URL, joined, look like to a second
    parse: behind the netloc there is no fragment, no query and, for a
    scheme with params, nothing [splitparams] would cut *)
Definition tail_ok (sch X : str) : Prop :=
  has_char "#"%char (break_on is_netloc_delim X).2 = false ∧
  has_char "?"%char (break_on is_netloc_delim X).2 = false ∧
  (sch ∈ uses_params -> no_params (break_on is_netloc_delim X).2).

(** the path after the optional cut of its params, as in [urlparse] *)
Definition cut_params (sch path : str) : str :=
  if bool_decide (sch ∈ uses_params) && has_char ";"%char path
  then splitparams path else path.

(** [a] may stand in front of [b] in a list sorted by descending key: the
    key of [a] is not the smaller one *)
Definition not_below {A K} (lt : K -> K -> bool) (key : A -> K) (a b : A) : Prop :=
  lt (key a) (key b) = false.

(** only [priority_score] differs *)
Definition rescored (a a' : Article) : Prop :=
  a' = a ∨ ∃ v, a' = set_priority_score v a.

(** what the loop of the deduplicator changes: it appends [kept] to the
    list [d] and sets scores *)
Record dedupe_frame (d : lref) (kept : list ref) (s s' : state) : Prop := {
  df_next : next_list s' = next_list s;
  df_fetched : fetched s' = fetched s;
  df_slept : slept s' = slept s;
  df_lists : ∀ l, l ≠ d -> lists s' l = lists s l;
  df_kept : lists s' d = lists s d ++ kept;
  df_dicts : ∀ r, rescored (dicts s r) (dicts s' r)
}.

(** the record carries a non-empty [fulltext] *)
Definition has_text (a : Article) : Prop :=
  ∃ text, fulltext a = Some text ∧ text ≠ [].

(** only [fulltext] differs, and it was set to a non-empty text *)
Definition retexted (a a' : Article) : Prop :=
  a' = a ∨ ∃ text, text ≠ [] ∧ a' = set_fulltext text a.

(** nothing can be resolved for the record: no content, no description,
    and every extraction from its URL fails or yields nothing *)
Definition hopeless (extract_result : nat -> str -> option str) (a : Article) : Prop :=
  content a = [] ∧ description a = [] ∧
  ∀ n, extract_result n (url a) = None ∨ extract_result n (url a) = Some [].

(** what the loop of the enricher changes over [n] records: it appends
    [kept] to the list [e], sets texts, fetches and sleeps *)
Record enrich_frame (extract_result : nat -> str -> option str)
    (e : lref) (n : nat) (kept : list ref) (s s' : state) : Prop := {
  ef_next : next_list s' = next_list s;
  ef_slept : slept s' = n + slept s;
  ef_fetched : fetched s `prefix_of` fetched s';
  ef_lists : ∀ l, l ≠ e -> lists s' l = lists s l;
  ef_kept : lists s' e = lists s e ++ kept;
  ef_dicts : ∀ r, retexted (dicts s r) (dicts s' r);
  ef_text : ∀ r, r ∈ kept -> has_text (dicts s' r) ∧ ¬ hopeless extract_result (dicts s r)
}.

(** The score in the words of the specification: the number of distinct
    vocabulary keywords that are substrings of the lowercased title. *)
Definition distinct_keyword_matches (t : str) : Z :=
  len (remove_dups
         (filter (λ keyword, Is_true (contains keyword (lower t))) priority_keywords)).

(** a character at which [urlparse] cuts the path: it starts the
    fragment, the query or the params *)
Definition is_cutter (c : ascii) : bool :=
  is_char "#"%char c || is_char "?"%char c || is_char ";"%char c.

(** neither content nor description passes the threshold: the enricher
    turns to extraction *)
Definition needs_fetch (min_chars : Z) (a : Article) : bool :=
  negb (long_enough min_chars (content a)) && negb (long_enough min_chars (description a)).

(** the enricher resolves a text for the record whatever extraction brings *)
Definition sure_text (min_chars : Z) (a : Article) : Prop :=
  long_enough min_chars (content a) = true ∨ description a ≠ [].

(** extraction from the URL never brings a text above the threshold *)
Definition extraction_too_short (extract_result : nat -> str -> option str)
    (min_chars : Z) (u : str) : Prop :=
  ∀ n, match extract_result n u with
       | Some text => long_enough min_chars text = false
       | None => True
       end.

(** The walk of the deduplicator over the sorted list, as a function of
    the two keys of a record: the records it keeps, in order. *)
Fixpoint dedupe_walk (ku kt : ref -> str) (xs : list ref)
    (seen_urls seen_titles : gset str) : list ref :=
  match xs with
  | [] => []
  | x :: xs' =>
      if decide (ku x ∈ seen_urls) then dedupe_walk ku kt xs' seen_urls seen_titles
      else if decide (kt x ∈ seen_titles) then dedupe_walk ku kt xs' seen_urls seen_titles
      else x :: dedupe_walk ku kt xs' ({[ku x]} ∪ seen_urls) ({[kt x]} ∪ seen_titles)
  end.

(** the score the ranker gives a record *)
Definition scored (a : Article) : Article :=
  set_priority_score (score_title (title a)) a.

(** the two keys the deduplicator compares records by *)
Definition url_key (chk : str -> bool) (s : state) (r : ref) : str :=
  normalize_url chk (url (dicts s r)).

Definition title_key (s : state) (r : ref) : str := normalize_title (title (dicts s r)).

(** [a] may stand in front of [b] in the ranked list: a greater score, or
    the same score and a date not earlier; a missing score counts as 0,
    a missing date as [datetime.min] *)
Definition ranks_before (a b : Article) : Prop :=
  (default 0 (priority_score b) < default 0 (priority_score a))%Z ∨
  (default 0%Z (priority_score b) = default 0%Z (priority_score a) ∧
   (default datetime_min (published_at b) <= default datetime_min (published_at a))%Z).

(** the character starts a query or a fragment *)
Definition is_cut (c : ascii) : Prop := c = "?"%char ∨ c = "#"%char.

(** [urlsplit] behind the removal of leading and unsafe characters *)
Definition urlsplit_cleaned (chk : str -> bool) (url : str) : result (str * str * str) :=
  let '(scheme, url) := split_scheme url in
  if startswith url (lit "//") then
    let '(netloc, url) := break_on is_netloc_delim (drop 2 url) in
    let ob := has_char "["%char netloc in
    let cb := has_char "]"%char netloc in
    if (ob && negb cb) || (cb && negb ob) then Raise ValueError
    else if ob && cb && negb (check_bracketed_netloc chk netloc) then Raise ValueError
    else Ok (scheme, netloc, before_first "?"%char (before_first "#"%char url))
  else Ok (scheme, [], before_first "?"%char (before_first "#"%char url)).

(** ** Concrete inputs *)

(** a check that rejects every bracketed host; the URLs below have none *)
Definition no_bracketed_hosts : str -> bool := λ _, false.

(** every extraction fails *)
Definition no_extraction : nat -> str -> option str := λ _ _, None.

Definition hour : Z := 3600000000.

(** an RSS record without description, published [h] hours after [datetime.min] *)
Definition rss_article (t u : string) (h : Z) : Article :=
  mkArticle (lit t) (lit u) (lit "Feed") (Some (h * hour)%Z) [] [] (lit "rss") None None.

(** ten records with distinct URLs and titles; the three oldest carry
    three, two and one priority keyword, the others none *)
Definition ten_articles : list Article :=
  [ rss_article "Election crisis in the senate" "https://news.example/0" 1;
    rss_article "Climate and economy" "https://news.example/1" 2;
    rss_article "Market update" "https://news.example/2" 3;
    rss_article "Local story three" "https://news.example/3" 4;
    rss_article "Local story four" "https://news.example/4" 5;
    rss_article "Local story five" "https://news.example/5" 6;
    rss_article "Local story six" "https://news.example/6" 7;
    rss_article "Local story seven" "https://news.example/7" 8;
    rss_article "Local story eight" "https://news.example/8" 9;
    rss_article "Local story nine" "https://news.example/9" 10 ].

(** a store whose list object 0 holds the references [refs] to [articles] *)
Definition store_of (articles : list Article) (refs : list ref) : state :=
  mkState (λ r, nth r articles (rss_article "" "" 0))
          (λ l, if decide (l = 0) then refs else [])
          1 [] 0.

Definition ten_state : state := store_of ten_articles (seq 0 10).

(** one record as the NewsAPI adapter builds it from an article without
    [publishedAt] *)
Definition undated_article : Article :=
  mkArticle (lit "Budget vote") (lit "https://news.example/budget") (lit "BBC News")
            None (lit "The vote is due on Friday.") [] (lit "newsapi") None None.

Definition undated_state : state := store_of [undated_article] [0].

(** the two records of the end-to-end scenario, [T] one hour *)
Definition same_url_articles : list Article :=
  [ mkArticle (lit "First title") (lit "https://example.com/a?utm=1") (lit "A")
              (Some hour) [] (replicate 1000 "x"%char) (lit "newsapi") None None;
    mkArticle (lit "Second title") (lit "https://example.com/a?utm=2") (lit "B")
              (Some (hour + 3600000000)%Z) [] (replicate 1000 "y"%char) (lit "newsapi") None None ].

Definition same_url_state : state := store_of same_url_articles [0; 1].

(** a record whose content has 600 characters *)
Definition long_content_state : state :=
  store_of [mkArticle (lit "Title") (lit "https://example.com/b") (lit "A") (Some hour)
                      [] (replicate 600 "x"%char) (lit "newsapi") None None] [0].

(** * Properties *)

(** ** Characters and strings *)

Lemma lower_char_not_upper c : is_upper (lower_char c) = false.
Proof. by destruct c as [[] [] [] [] [] [] [] []]. Qed.

Lemma lower_char_fixed c : is_upper c = false -> lower_char c = c.
Proof. unfold lower_char. by intros ->. Qed.

Lemma lower_char_idemp c : lower_char (lower_char c) = lower_char c.
Proof. apply lower_char_fixed, lower_char_not_upper. Qed.

Lemma lower_not_upper s : Forall (λ c, is_upper c = false) (lower s).
Proof. apply Forall_fmap, Forall_true. intros c. apply lower_char_not_upper. Qed.

Lemma lower_fixed s : Forall (λ c, is_upper c = false) s -> lower s = s.
Proof.
  induction 1 as [|c s Hc _ IH]; [done|].
  unfold lower in *. simpl. by rewrite IH, lower_char_fixed.
Qed.

Lemma lstrip_suffix p s : lstrip p s `suffix_of` s.
Proof.
  induction s as [|c s IH]; simpl; [done|].
  destruct (p c); [by apply suffix_cons_r | done].
Qed.

Lemma lstrip_head p s c r : lstrip p s = c :: r -> p c = false.
Proof.
  induction s as [|x s IH]; simpl; [done|].
  destruct (p x) eqn:Hx; [done|]. by intros [= <- _].
Qed.

Lemma lstrip_keep p c r : p c = false -> lstrip p (c :: r) = c :: r.
Proof. simpl. by intros ->. Qed.

Lemma lstrip_idemp p s : lstrip p (lstrip p s) = lstrip p s.
Proof.
  destruct (lstrip p s) as [|c r] eqn:E; [done|].
  apply lstrip_keep. by eapply lstrip_head.
Qed.

Lemma lstrip_snoc p l c : p c = false -> lstrip p (l ++ [c]) = lstrip p l ++ [c].
Proof.
  intros Hc. induction l as [|x l IH]; simpl; [by rewrite Hc|].
  by destruct (p x).
Qed.

Lemma rstrip_cons p c r : p c = false -> rstrip p (c :: r) = c :: rstrip p r.
Proof.
  intros Hc. unfold rstrip. rewrite reverse_cons, lstrip_snoc by done.
  by rewrite reverse_app.
Qed.

Lemma rstrip_idemp p s : rstrip p (rstrip p s) = rstrip p s.
Proof. unfold rstrip. by rewrite reverse_involutive, lstrip_idemp. Qed.

Lemma lstrip_elem p s c : c ∈ lstrip p s -> c ∈ s.
Proof. intros H. destruct (lstrip_suffix p s) as [k ->]. apply elem_of_app. by right. Qed.

Lemma rstrip_elem p s c : c ∈ rstrip p s -> c ∈ s.
Proof.
  unfold rstrip. rewrite elem_of_reverse. intros H%lstrip_elem.
  by apply elem_of_reverse.
Qed.

Lemma strip_elem s c : c ∈ strip s -> c ∈ s.
Proof. unfold strip. by intros H%rstrip_elem%lstrip_elem. Qed.

Lemma strip_idemp s : strip (strip s) = strip s.
Proof.
  unfold strip. destruct (lstrip is_space s) as [|c r] eqn:E; [done|].
  pose proof (lstrip_head _ _ _ _ E) as Hc.
  rewrite (rstrip_cons _ _ _ Hc), (lstrip_keep _ _ _ Hc).
  by rewrite <- (rstrip_cons _ _ _ Hc), rstrip_idemp.
Qed.

Lemma startswith_prefix s pre : startswith s pre = true <-> pre `prefix_of` s.
Proof.
  revert s. induction pre as [|p pre IH]; intros s; simpl.
  - split; [intros _; apply prefix_nil | by destruct s].
  - destruct s as [|c s].
    + split; [done|]. intros H. by apply prefix_nil_inv in H.
    + rewrite andb_true_iff, bool_decide_eq_true, IH. split.
      * intros [-> H]. by apply prefix_cons.
      * intros H. split; [symmetry; by eapply prefix_cons_inv_1 | by eapply prefix_cons_inv_2].
  Qed.

Lemma endswith_suffix s suf : endswith s suf = true <-> suf `suffix_of` s.
Proof. unfold endswith. by rewrite startswith_prefix, suffix_prefix_reverse. Qed.

Lemma contains_head x sub s : contains (x :: sub) s = true -> x ∈ s.
Proof.
  induction s as [|c s IH]; simpl; [done|].
  rewrite orb_true_iff, andb_true_iff, bool_decide_eq_true.
  intros [[-> _]|H]; [left | right; auto].
Qed.

(** ** C5, titles: the title canonicalizer is idempotent *)

Lemma strip_suffix_none sufs s :
  Forall (λ suf, ∃ c, c ∈ suf ∧ c ∉ s) sufs -> strip_suffix sufs s = s.
Proof.
  induction 1 as [|suf sufs (c & Hc & Hn) _ IH]; simpl; [done|].
  destruct (endswith s suf) eqn:E; [|done].
  apply endswith_suffix in E. destruct E as [k ->].
  destruct Hn. apply elem_of_app. by right.
Qed.

Lemma suffixes_have_upper :
  Forall (λ suf, ∃ c, c ∈ suf ∧ is_upper c = true) suffixes.
Proof.
  unfold suffixes. simpl. repeat constructor.
  - exists "T"%char. split; [|done]. unfold lit; simpl. set_solver.
  - exists "T"%char. split; [|done]. unfold lit; simpl. set_solver.
  - exists "A"%char. split; [|done]. unfold lit; simpl. set_solver.
  - exists "W"%char. split; [|done]. unfold lit; simpl. set_solver.
  - exists "E"%char. split; [|done]. unfold lit; simpl. set_solver.
Qed.

Lemma normalize_title_not_upper t : Forall (λ c, is_upper c = false) (normalize_title t).
Proof.
  unfold normalize_title. apply Forall_forall. intros c Hc%strip_elem.
  revert c Hc. apply Forall_forall, lower_not_upper.
Qed.

Example normalize_url_ex1 chk :
  normalize_url chk (lit "https://example.com/a?utm=1") = lit "https://example.com/a".
Proof. reflexivity. Qed.

Example normalize_url_ex2 chk :
  normalize_url chk (lit "http://a/b;c/d;e?x#y") = lit "http://a/b;c/d".
Proof. reflexivity. Qed.

Example normalize_url_ex3 chk :
  normalize_url chk (lit "http:/a;b") = lit "http:///a".
Proof. reflexivity. Qed.

Example normalize_url_ex4 chk :
  normalize_url chk (lit "example.com/a") = lit "://example.com/a".
Proof. reflexivity. Qed.

Example normalize_title_ex1 :
  normalize_title (lit "  Big News | Wired") = lit "big news".
Proof. reflexivity. Qed.

(** ** C5, URLs *)

Lemma break_on_app p s : (break_on p s).1 ++ (break_on p s).2 = s.
Proof.
  induction s as [|c s IH]; simpl; [done|].
  destruct (p c); [done|]. destruct (break_on p s) as [a b]. simpl in *. by rewrite IH.
Qed.

Lemma break_on_free p s : Forall (λ c, p c = false) (break_on p s).1.
Proof.
  induction s as [|c s IH]; simpl; [constructor|].
  destruct (p c) eqn:E; [constructor|].
  destruct (break_on p s) as [a b]. simpl in *. by constructor.
Qed.

Lemma break_on_rest p s c r : (break_on p s).2 = c :: r -> p c = true.
Proof.
  induction s as [|x s IH]; simpl; [done|].
  destruct (p x) eqn:E; simpl; [by intros [= <- _]|].
  destruct (break_on p s) as [a b]. simpl in *. done.
Qed.

Lemma break_on_unique p a b :
  Forall (λ c, p c = false) a -> starts_in p b -> break_on p (a ++ b) = (a, b).
Proof.
  intros Ha Hb. induction Ha as [|c a Hc _ IH]; simpl.
  - destruct b as [|c b]; [done|]. simpl in *. by rewrite Hb.
  - by rewrite Hc, IH.
Qed.

Lemma break_on_all p s : Forall (λ c, p c = false) s -> break_on p s = (s, []).
Proof. intros H. rewrite <- (app_nil_r s) at 1. by apply break_on_unique. Qed.

Lemma has_char_false c s : has_char c s = false <-> Forall (λ x, is_char c x = false) s.
Proof.
  unfold has_char, is_char. induction s as [|x s IH]; simpl.
  - split; [constructor | done].
  - rewrite orb_false_iff, IH, Forall_cons. done.
Qed.

Lemma before_first_free c s : has_char c (before_first c s) = false.
Proof. apply has_char_false, break_on_free. Qed.

Lemma before_first_prefix c s : before_first c s `prefix_of` s.
Proof. exists (break_on (is_char c) s).2. symmetry. apply break_on_app. Qed.

Lemma before_first_id c s : has_char c s = false -> before_first c s = s.
Proof. intros H%has_char_false. unfold before_first. by rewrite break_on_all. Qed.

Lemma has_char_prefix c a s : a `prefix_of` s -> has_char c s = false -> has_char c a = false.
Proof.
  intros [k ->]. rewrite !has_char_false, Forall_app. tauto.
Qed.

Lemma after_last_suffix c s t : after_last c s = Some t -> ∃ a, s = a ++ c :: t.
Proof.
  revert t. induction s as [|x s IH]; intros t; simpl; [done|].
  destruct (after_last c s) as [t'|] eqn:E.
  - intros [= <-]. destruct (IH _ eq_refl) as [a ->]. by exists (x :: a).
  - case_bool_decide as Hx; [|done]. intros [= <-]. subst. by exists [].
Qed.

Lemma after_last_None c s : after_last c s = None <-> has_char c s = false.
Proof.
  unfold has_char. induction s as [|x s IH]; simpl; [done|].
  destruct (after_last c s) as [t'|] eqn:E.
  - split; [done|]. rewrite orb_false_iff. intros [_ H]. by apply IH in H.
  - case_bool_decide; simpl; [done|]. by rewrite <- IH.
Qed.

Lemma after_last_app c a t :
  after_last c (a ++ c :: t) = Some (default t (after_last c t)).
Proof.
  induction a as [|x a IH]; simpl.
  - destruct (after_last c t); simpl; [done|]. by rewrite bool_decide_true.
  - by rewrite IH.
Qed.

Lemma splitparams_prefix x : splitparams x `prefix_of` x.
Proof.
  unfold splitparams. destruct (after_last _ x) as [tail|].
  - destruct (break_on _ tail) as [a [|? ?]]; [done|]. apply prefix_take.
  - pose proof (before_first_prefix ";"%char x) as H. unfold before_first in H.
    destruct (break_on _ x) as [a [|? ?]]; [|done].
    unfold slice_to. simpl. apply prefix_take.
Qed.

Lemma take_app_length' {A} (a b : list A) n : n = length a -> take n (a ++ b) = a.
Proof. intros ->. apply take_app_length. Qed.

Lemma splitparams_no_params x : has_char ";"%char x = true -> no_params (splitparams x).
Proof.
  intros Hx. unfold splitparams, no_params.
  destruct (after_last _ x) as [tail|] eqn:E.
  - destruct (after_last_suffix _ _ _ E) as [a ->].
    pose proof (break_on_app (is_char ";"%char) tail) as Happ.
    pose proof (break_on_free (is_char ";"%char) tail) as Hfree.
    destruct (break_on _ tail) as [b [|c r]]; simpl in *.
    + rewrite E. rewrite app_nil_r in Happ. subst b. by apply has_char_false.
    + subst tail.
      replace (a ++ "/"%char :: b ++ c :: r) with ((a ++ "/"%char :: b) ++ c :: r)
        by (by rewrite <- app_assoc).
      rewrite take_app_length' by (repeat (rewrite length_app; simpl); lia).
      assert (has_char "/"%char b = false) as Hb.
      { rewrite after_last_app in E.
        injection E as E. destruct (after_last "/"%char (b ++ c :: r)) as [t|] eqn:E2.
        - simpl in E. apply after_last_suffix in E2 as [a' E2]. apply (f_equal length) in E2.
          subst t. repeat (rewrite length_app in E2; simpl in E2). lia.
        - apply after_last_None in E2. eapply has_char_prefix; [|done]. by exists (c :: r). }
      rewrite after_last_app. apply after_last_None in Hb. rewrite Hb. simpl.
      by apply has_char_false.
  - pose proof (break_on_app (is_char ";"%char) x) as Happ.
    pose proof (break_on_free (is_char ";"%char) x) as Hfree.
    destruct (break_on _ x) as [b [|c r]]; simpl in *.
    + rewrite app_nil_r in Happ. subst b. apply has_char_false in Hfree. congruence.
    + assert (has_char "/"%char b = false) as Hb.
      { apply after_last_None in E. eapply has_char_prefix; [|done]. exists (c :: r). done. }
      apply after_last_None in Hb. rewrite Hb. by apply has_char_false.
Qed.

Lemma no_params_fixed x : no_params x -> has_char ";"%char x = true -> splitparams x = x.
Proof.
  unfold no_params, splitparams. destruct (after_last _ x) as [tail|].
  - intros H%has_char_false _. by rewrite break_on_all.
  - congruence.
Qed.

Lemma scheme_char_facts c :
  is_scheme_char c = true ->
  is_char ":"%char c = false ∧ is_unsafe_byte c = false ∧ is_scheme_char (lower_char c) = true.
Proof. by destruct c as [[] [] [] [] [] [] [] []]. Qed.

Lemma alpha_facts c :
  is_alpha_ascii c = true ->
  is_c0_or_space c = false ∧ is_alpha_ascii (lower_char c) = true.
Proof. by destruct c as [[] [] [] [] [] [] [] []]. Qed.

Lemma filter_fixed {A} (P : A -> Prop) `{∀ x, Decision (P x)} l :
  Forall P l -> filter P l = l.
Proof.
  induction 1 as [|x l Hx _ IH]; [done|]. by rewrite filter_cons_True, IH.
Qed.

Lemma split_scheme_wf x sch rest :
  split_scheme x = (sch, rest) -> sch ≠ [] ->
  wf_scheme sch ∧ ∃ pre, x = pre ++ ":"%char :: rest.
Proof.
  unfold split_scheme.
  pose proof (break_on_app (is_char ":"%char) x) as Happ.
  pose proof (break_on_rest (is_char ":"%char) x) as Hrest.
  destruct (break_on _ x) as [[|c0 pre] [|c r]]; simpl in *; try by intros [= <- _].
  destruct (is_alpha_ascii c0) eqn:Ha; simpl; [|by intros [= <- _]].
  destruct (is_scheme_char c0) eqn:Hc0; simpl; [|by intros [= <- _]].
  destruct (forallb is_scheme_char pre) eqn:Hpre; simpl; [|by intros [= <- _]].
  intros [= <- <-] _. split.
  - exists (lower_char c0), (lower pre). split_and!.
    + done.
    + by apply alpha_facts.
    + apply Is_true_true, forallb_True in Hpre. change (lower_char c0 :: lower pre) with (lower (c0 :: pre)).
      apply Forall_fmap. constructor; [by apply scheme_char_facts|].
      eapply Forall_impl; [done|]. intros ? ?%Is_true_true. by apply scheme_char_facts.
    + apply (lower_not_upper (c0 :: pre)).
  - exists (c0 :: pre). specialize (Hrest _ _ eq_refl). unfold is_char in Hrest.
    apply bool_decide_eq_true in Hrest. by subst c.
Qed.

Lemma split_scheme_reparse sch r :
  wf_scheme sch -> split_scheme (sch ++ ":"%char :: r) = (sch, r).
Proof.
  intros (c0 & pre & -> & Ha & Hs & Hu). unfold split_scheme.
  rewrite (break_on_unique _ (c0 :: pre) (":"%char :: r)).
  - cbv beta iota. rewrite Ha.
    assert (forallb is_scheme_char (c0 :: pre) = true) as ->.
    { apply Is_true_true, forallb_True. eapply Forall_impl; [exact Hs|]. by intros ? ->. }
    simpl. change (lower_char c0 :: lower pre) with (lower (c0 :: pre)).
    by rewrite lower_fixed.
  - eapply Forall_impl; [exact Hs|]. intros c Hc. by apply scheme_char_facts.
  - done.
Qed.

Lemma preprocess_fixed sch r :
  wf_scheme sch -> safe r ->
  filter (λ c, negb (is_unsafe_byte c)) (lstrip is_c0_or_space (sch ++ r)) = sch ++ r.
Proof.
  intros (c0 & pre & -> & Ha & Hs & Hu) Hr.
  rewrite <- app_comm_cons, lstrip_keep by (by apply alpha_facts).
  apply filter_fixed. rewrite app_comm_cons. apply Forall_app. split.
  - eapply Forall_impl; [exact Hs|]. intros c Hc. apply scheme_char_facts in Hc as (_ & -> & _). done.
  - eapply Forall_impl; [exact Hr|]. by intros c ->.
Qed.

Section Reparse.
Variable chk : str -> bool.

Lemma reparse sch X :
  wf_scheme sch -> safe X -> tail_ok sch X ->
  normalize_url chk (sch ++ lit "://" ++ X) = sch ++ lit "://" ++ X.
Proof.
  intros Hwf HX (Hf & Hq & Hp).
  unfold normalize_url, urlparse, urlsplit.
  rewrite preprocess_fixed; [|done|].
  2:{ unfold lit; simpl. repeat constructor; done. }
  change (lit "://" ++ X) with (":"%char :: lit "//" ++ X).
  rewrite split_scheme_reparse by done.
  change (startswith (lit "//" ++ X) (lit "//")) with true.
  change (drop 2 (lit "//" ++ X)) with X. cbv iota beta.
  pose proof (break_on_app is_netloc_delim X) as Happ.
  destruct (break_on is_netloc_delim X) as [n2 r2]. simpl in *.
  destruct (_ || _); [done|]. destruct (_ && _ && _); [done|].
  rewrite (before_first_id "#"%char) by done.
  rewrite (before_first_id "?"%char) by done.
  case_bool_decide as Hu; simpl.
  - destruct (has_char ";"%char r2) eqn:Hsc.
    + rewrite no_params_fixed by auto. by rewrite <- Happ.
    + by rewrite <- Happ.
  - by rewrite <- Happ.
Qed.
End Reparse.

Lemma has_char_suffix c a s : a `suffix_of` s -> has_char c s = false -> has_char c a = false.
Proof. intros [k ->]. rewrite !has_char_false, Forall_app. tauto. Qed.

Lemma no_semicolon_no_params x : has_char ";"%char x = false -> no_params x.
Proof.
  intros H. unfold no_params. destruct (after_last _ x) as [t|] eqn:E; [|done].
  apply after_last_suffix in E as [a ->]. eapply has_char_suffix; [|done].
  exists (a ++ ["/"%char]). by rewrite <- app_assoc.
Qed.

Lemma starts_in_prefix p a b : a `prefix_of` b -> starts_in p b -> starts_in p a.
Proof. intros [k ->]. by destruct a. Qed.

Lemma delim_slash c :
  is_netloc_delim c = true -> is_char "#"%char c = false -> is_char "?"%char c = false ->
  c = "/"%char.
Proof.
  unfold is_netloc_delim, is_char. repeat case_bool_decide; simpl; congruence.
Qed.

Lemma no_params_rest p :
  no_params p -> has_char "#"%char p = false -> has_char "?"%char p = false ->
  no_params (break_on is_netloc_delim p).2.
Proof.
  intros Hp Hf Hq.
  pose proof (break_on_app is_netloc_delim p) as Happ.
  pose proof (break_on_rest is_netloc_delim p) as Hrest.
  destruct (break_on is_netloc_delim p) as [n2 [|c t]]; simpl in *.
  - by apply no_semicolon_no_params.
  - specialize (Hrest _ _ eq_refl).
    apply has_char_false in Hf, Hq. rewrite <- Happ in Hf, Hq.
    apply Forall_app in Hf as [_ [Hf _]%Forall_cons].
    apply Forall_app in Hq as [_ [Hq _]%Forall_cons].
    pose proof (delim_slash _ Hrest Hf Hq) as ->.
    unfold no_params in *. rewrite <- Happ, after_last_app in Hp.
    pose proof (after_last_app "/"%char [] t) as Ht. rewrite app_nil_l in Ht.
    by rewrite Ht.
Qed.

Lemma cut_params_prefix sch path : cut_params sch path `prefix_of` path.
Proof. unfold cut_params. destruct (_ && _); [apply splitparams_prefix | done]. Qed.

Lemma cut_params_no_params sch path : sch ∈ uses_params -> no_params (cut_params sch path).
Proof.
  intros H. unfold cut_params. rewrite bool_decide_true by done. simpl.
  destruct (has_char _ path) eqn:E; [by apply splitparams_no_params | by apply no_semicolon_no_params].
Qed.

Section FirstParse.
Variable chk : str -> bool.

Lemma first_parse u sch n p :
  urlparse chk u = Ok (sch, n, p) -> sch ≠ [] ->
  wf_scheme sch ∧ safe (n ++ p) ∧ tail_ok sch (n ++ p).
Proof.
  unfold urlparse, urlsplit.
  set (x := filter _ (lstrip _ u)).
  assert (safe x) as Hx.
  { apply Forall_forall. intros c [Hc _]%list_elem_of_filter. by destruct (is_unsafe_byte c). }
  destruct (split_scheme x) as [sch0 R] eqn:ES.
  destruct (startswith R (lit "//")) eqn:Hss.
  - apply startswith_prefix in Hss as [body HR].
    assert (drop 2 R = body) as -> by (by rewrite HR).
    pose proof (break_on_app is_netloc_delim body) as Happ.
    pose proof (break_on_free is_netloc_delim body) as Hfree.
    pose proof (break_on_rest is_netloc_delim body) as Hrest.
    destruct (break_on is_netloc_delim body) as [n0 r]. simpl in *.
    destruct (_ || _); [done|]. destruct (_ && _ && _); [done|].
    fold (cut_params sch0 (before_first "?"%char (before_first "#"%char r))).
    set (path0 := before_first "?"%char (before_first "#"%char r)).
    intros E Hne.
    assert (sch0 = sch ∧ n0 = n ∧ cut_params sch0 path0 = p) as (-> & -> & Hp).
    { unfold cut_params in *. destruct (_ && _); by injection E. }
    destruct (split_scheme_wf _ _ _ ES Hne) as [Hwf [pre Hxeq]].
    assert (p `prefix_of` r) as Hpr.
    { rewrite <- Hp. etrans; [apply cut_params_prefix|].
      unfold path0. etrans; apply before_first_prefix. }
    assert (has_char "#"%char p = false ∧ has_char "?"%char p = false) as [Hf Hq].
    { rewrite <- Hp. split.
      - eapply has_char_prefix; [etrans; [apply cut_params_prefix | apply before_first_prefix]|].
        apply before_first_free.
      - eapply has_char_prefix; [apply cut_params_prefix|]. apply before_first_free. }
    split_and!; [done| |].
    + destruct Hpr as [k Hk].
      unfold safe in *. rewrite Hxeq, HR, <- Happ, Hk in Hx.
      rewrite !Forall_app, !Forall_cons, !Forall_app in Hx.
      apply Forall_app. tauto.
    + unfold tail_ok. rewrite break_on_unique; simpl.
      * split_and!; [done..|]. intros Hu. rewrite <- Hp. by apply cut_params_no_params.
      * done.
      * eapply starts_in_prefix; [done|]. destruct r; [done|]. by eapply Hrest.
  - fold (cut_params sch0 (before_first "?"%char (before_first "#"%char R))).
    set (path0 := before_first "?"%char (before_first "#"%char R)).
    intros E Hne.
    assert (sch0 = sch ∧ [] = n ∧ cut_params sch0 path0 = p) as (-> & <- & Hp).
    { unfold cut_params in *. destruct (_ && _); by injection E. }
    destruct (split_scheme_wf _ _ _ ES Hne) as [Hwf [pre Hxeq]].
    assert (p `prefix_of` R) as Hpr.
    { rewrite <- Hp. etrans; [apply cut_params_prefix|].
      unfold path0. etrans; apply before_first_prefix. }
    assert (has_char "#"%char p = false ∧ has_char "?"%char p = false) as [Hf Hq].
    { rewrite <- Hp. split.
      - eapply has_char_prefix; [etrans; [apply cut_params_prefix | apply before_first_prefix]|].
        apply before_first_free.
      - eapply has_char_prefix; [apply cut_params_prefix|]. apply before_first_free. }
    simpl. split_and!; [done| |].
    + destruct Hpr as [k Hk]. unfold safe in *. rewrite Hxeq, Hk in Hx.
      rewrite !Forall_app, !Forall_cons, !Forall_app in Hx. tauto.
    + assert ((break_on is_netloc_delim p).2 `suffix_of` p) as Hsuf.
      { exists (break_on is_netloc_delim p).1. symmetry. apply break_on_app. }
      unfold tail_ok. split_and!.
      * by eapply has_char_suffix.
      * by eapply has_char_suffix.
      * intros Hu. apply no_params_rest; [|done..]. rewrite <- Hp. by apply cut_params_no_params.
Qed.

Lemma normalize_url_idempotent_with_scheme u sch n p :
  urlparse chk u = Ok (sch, n, p) -> sch ≠ [] ->
  normalize_url chk (normalize_url chk u) = normalize_url chk u.
Proof.
  intros E Hne. destruct (first_parse _ _ _ _ E Hne) as (Hwf & Hs & Ht).
  unfold normalize_url at 2 3. rewrite E. by apply reparse.
Qed.

Lemma normalize_url_idempotent_on_error u e :
  urlparse chk u = Raise e ->
  normalize_url chk (normalize_url chk u) = normalize_url chk u.
Proof. intros E. unfold normalize_url. by rewrite E, E. Qed.
End FirstParse.

(** *** Strings without a scheme *)

Lemma before_first_rest c s :
  before_first c s = s ∨ ∃ r, s = before_first c s ++ c :: r.
Proof.
  unfold before_first.
  pose proof (break_on_app (is_char c) s) as Happ.
  pose proof (break_on_rest (is_char c) s) as Hrest.
  destruct (break_on (is_char c) s) as [a [|x r]]; simpl in *.
  - left. by rewrite app_nil_r in Happ.
  - right. exists r. specialize (Hrest _ _ eq_refl). unfold is_char in Hrest.
    apply bool_decide_eq_true in Hrest. by subst x.
Qed.

Lemma splitparams_rest x :
  has_char ";"%char x = true ->
  splitparams x = x ∨ ∃ r, x = splitparams x ++ ";"%char :: r.
Proof.
  intros Hx. unfold splitparams.
  destruct (after_last "/"%char x) as [tail|] eqn:E.
  - destruct (after_last_suffix _ _ _ E) as [a ->].
    pose proof (break_on_app (is_char ";"%char) tail) as Happ.
    pose proof (break_on_rest (is_char ";"%char) tail) as Hrest.
    destruct (break_on _ tail) as [b [|c r]]; simpl in *; [by left|].
    specialize (Hrest _ _ eq_refl). unfold is_char in Hrest.
    apply bool_decide_eq_true in Hrest. subst c tail.
    right. exists r.
    replace (a ++ "/"%char :: b ++ ";"%char :: r) with ((a ++ "/"%char :: b) ++ ";"%char :: r)
      by (by rewrite <- app_assoc).
    rewrite take_app_length' by (repeat (rewrite length_app; simpl); lia). done.
  - pose proof (break_on_app (is_char ";"%char) x) as Happ.
    pose proof (break_on_free (is_char ";"%char) x) as Hfree.
    pose proof (break_on_rest (is_char ";"%char) x) as Hrest.
    destruct (break_on _ x) as [b [|c r]]; simpl in *.
    + rewrite app_nil_r in Happ. subst b. apply has_char_false in Hfree. congruence.
    + specialize (Hrest _ _ eq_refl). unfold is_char in Hrest.
      apply bool_decide_eq_true in Hrest. subst c. right. by exists r.
Qed.

(** what [urlparse] keeps of the path is the path, or the path up to a
    character that starts fragment, query or params *)
Lemma cut_rest sch x :
  let p := cut_params sch (before_first "?"%char (before_first "#"%char x)) in
  p = x ∨ ∃ c r, x = p ++ c :: r ∧ is_cutter c = true.
Proof.
  cbv zeta.
  assert (∀ (a b x : str), (a = b ∨ ∃ c r, b = a ++ c :: r ∧ is_cutter c = true) ->
            (b = x ∨ ∃ c r, x = b ++ c :: r ∧ is_cutter c = true) ->
            a = x ∨ ∃ c r, x = a ++ c :: r ∧ is_cutter c = true) as Htrans.
  { intros a b y [E1|(c & r & E1 & Hc)] [E2|(c' & r' & E2 & Hc')]; subst.
    - by left.
    - right. by exists c', r'.
    - right. by exists c, r.
    - right. exists c, (r ++ c' :: r'). by rewrite <- app_assoc. }
  eapply Htrans; [|eapply Htrans].
  - unfold cut_params. destruct (bool_decide _ && has_char _ _) eqn:E; [|by left].
    apply andb_true_iff in E as [_ E].
    destruct (splitparams_rest _ E) as [->|[r Hr]]; [by left|right].
    exists ";"%char, r. done.
  - destruct (before_first_rest "?"%char (before_first "#"%char x)) as [H|[r Hr]]; [by left|right].
    exists "?"%char, r. done.
  - destruct (before_first_rest "#"%char x) as [H|[r Hr]]; [by left|right].
    exists "#"%char, r. done.
Qed.

Section Schemeless.
Variable chk : str -> bool.

(** a string that starts with a colon has no scheme and no netloc *)
Lemma urlparse_colon w :
  urlparse chk (":"%char :: w) =
    Ok ([], [], cut_params [] (before_first "?"%char (before_first "#"%char
                  (":"%char :: filter (λ c, negb (is_unsafe_byte c)) w)))).
Proof.
  unfold urlparse, urlsplit. cbv zeta.
  change (lstrip is_c0_or_space (":"%char :: w)) with (":"%char :: w).
  change (filter (λ c, negb (is_unsafe_byte c)) (":"%char :: w))
    with (":"%char :: filter (λ c, negb (is_unsafe_byte c)) w).
  set (y := filter _ w).
  change (split_scheme (":"%char :: y)) with (([] : str), ":"%char :: y).
  cbv iota beta.
  change (startswith (":"%char :: y) (lit "//")) with false.
  cbv iota beta. unfold cut_params.
  by destruct (_ && _).
Qed.

Lemma normalize_url_colon_moves w : normalize_url chk (":"%char :: w) ≠ ":"%char :: w.
Proof.
  unfold normalize_url. rewrite urlparse_colon.
  set (x := ":"%char :: filter _ w).
  pose proof (cut_rest [] x) as Hcut. cbv zeta in Hcut.
  set (p := cut_params [] _) in *.
  intros Heq. simpl in Heq. injection Heq as Hw.
  assert (Forall (λ c, is_unsafe_byte c = false) x) as Hx.
  { unfold x. constructor; [done|]. apply Forall_forall.
    intros c [Hc _]%list_elem_of_filter. by destruct (is_unsafe_byte c). }
  assert (x = ":"%char :: "/"%char :: "/"%char :: p) as Hxp.
  { destruct Hcut as [Hp|(c & r & Hp & _)].
    - unfold x at 1. rewrite <- Hw. simpl.
      rewrite !filter_cons_True by done. do 3 f_equal.
      apply filter_fixed. rewrite Hp. eapply Forall_impl; [exact Hx|]. by intros c ->.
    - unfold x at 1. rewrite <- Hw. simpl.
      rewrite !filter_cons_True by done. do 3 f_equal.
      apply filter_fixed. rewrite Hp in Hx. apply Forall_app in Hx as [Hx _].
      eapply Forall_impl; [exact Hx|]. by intros c' ->. }
  clearbody p. clearbody x. clear Hw Hx.
  destruct Hcut as [Hp|(c & r & Hp & Hc)].
  - apply (f_equal length) in Hxp. rewrite <- Hp in Hxp. simpl in Hxp. lia.
  - assert (length (filter (λ c, Is_true (is_cutter c)) x) =
            length (filter (λ c, Is_true (is_cutter c)) p)) as H1.
    { rewrite Hxp. by rewrite !filter_cons_False by (by intros ?). }
    rewrite Hp in H1 at 1. rewrite filter_app, filter_cons_True, length_app in H1
      by (by apply Is_true_true).
    cbn [length] in H1. unfold str in *. lia.
Qed.

Lemma normalize_url_moves_schemeless u n p :
  urlparse chk u = Ok ([], n, p) ->
  normalize_url chk u = lit "://" ++ n ++ p ∧
  normalize_url chk (normalize_url chk u) ≠ normalize_url chk u.
Proof.
  intros E. assert (normalize_url chk u = lit "://" ++ n ++ p) as ->.
  { unfold normalize_url. by rewrite E. }
  split; [done|]. apply normalize_url_colon_moves.
Qed.

End Schemeless.

(** ** Sorting *)

Section SortFacts.
Context {A K : Type} (lt : K -> K -> bool) (key : A -> K).

Lemma insert_desc_perm x l : insert_desc lt key x l ≡ₚ x :: l.
Proof.
induction l as [|y l IH]; simpl; [done|].
destruct (lt (key x) (key y)); [|done].
rewrite IH. apply Permutation_swap.
Qed.

Lemma sort_desc_perm l : sort_desc lt key l ≡ₚ l.
Proof.
induction l as [|x l IH]; simpl; [done|].
by rewrite insert_desc_perm, IH.
Qed.

Hypothesis lt_asym : ∀ a b, lt a b = true -> lt b a = false.
Hypothesis not_lt_trans : ∀ a b c, lt a b = false -> lt b c = false -> lt a c = false.

Lemma insert_desc_sorted x l :
StronglySorted (not_below lt key) l -> StronglySorted (not_below lt key) (insert_desc lt key x l).
Proof.
induction 1 as [|y l Hl IH Hy]; simpl.
- repeat constructor.
- destruct (lt (key x) (key y)) eqn:E.
  + constructor; [done|]. rewrite insert_desc_perm. constructor; [|done].
    by apply lt_asym.
  + constructor; [by constructor|]. constructor; [done|].
    eapply Forall_impl; [exact Hy|]. intros z Hz. unfold not_below in *. eauto.
Qed.

Lemma sort_desc_sorted l : StronglySorted (not_below lt key) (sort_desc lt key l).
Proof.
induction l as [|x l IH]; simpl; [constructor|]. by apply insert_desc_sorted.
Qed.

End SortFacts.

Section SortStable.
Context {A K : Type} (lt : K -> K -> bool) (key : A -> K).
Context (P : A -> Prop) `{∀ x, Decision (P x)}.
Hypothesis same_key : ∀ x y, P x -> P y -> lt (key x) (key y) = false.

Lemma insert_desc_filter x l :
filter P (insert_desc lt key x l) = filter P (x :: l).
Proof.
induction l as [|y l IH]; [done|]. simpl.
destruct (lt (key x) (key y)) eqn:E; [|done].
rewrite filter_cons, IH, !filter_cons.
destruct (decide (P x)) as [Hx|Hx]; [|done].
destruct (decide (P y)) as [Hy|Hy]; [|done].
by rewrite same_key in E.
Qed.

(** the sort is stable: records that agree on [P], hence on the key,
keep their order *)
Lemma sort_desc_stable l : filter P (sort_desc lt key l) = filter P l.
Proof.
induction l as [|x l IH]; [done|]. simpl.
by rewrite insert_desc_filter, !filter_cons, IH.
Qed.
End SortStable.

Lemma sort_desc_ext {A K} (lt : K -> K -> bool) (key1 key2 : A -> K) l :
  (∀ x, x ∈ l -> key1 x = key2 x) -> sort_desc lt key1 l = sort_desc lt key2 l.
Proof.
  assert (∀ x l', key1 x = key2 x -> (∀ y, y ∈ l' -> key1 y = key2 y) ->
                  insert_desc lt key1 x l' = insert_desc lt key2 x l') as Hins.
  { intros x l' Hx. induction l' as [|y l' IH]; intros Hl'; simpl; [done|].
    rewrite Hx, (Hl' y) by left. rewrite IH; [done|]. intros z Hz. apply Hl'. by right. }
  induction l as [|x l IH]; intros Hl; simpl; [done|].
  rewrite IH by (intros y Hy; apply Hl; by right).
  apply Hins; [apply Hl; left|].
  intros y Hy. apply Hl. right. by rewrite <- (sort_desc_perm lt key2 l).
Qed.

Lemma Zltb_asym a b : (a <? b)%Z = true -> (b <? a)%Z = false.
Proof. lia. Qed.

Lemma Zltb_not_trans a b c : (a <? b)%Z = false -> (b <? c)%Z = false -> (a <? c)%Z = false.
Proof. lia. Qed.

Lemma pair_ltb_asym a b : pair_ltb a b = true -> pair_ltb b a = false.
Proof. unfold pair_ltb. lia. Qed.

Lemma pair_ltb_not_trans a b c :
  pair_ltb a b = false -> pair_ltb b c = false -> pair_ltb a c = false.
Proof. unfold pair_ltb. lia. Qed.


(** ** The deduplicator *)

Lemma rescored_refl a : rescored a a.
Proof. by left. Qed.

Lemma rescored_trans a b c : rescored a b -> rescored b c -> rescored a c.
Proof.
  intros [->|[v ->]] [->|[w ->]]; [by left | right; by exists w | right; by exists v |].
  right. by exists w.
Qed.

Lemma rescored_date a a' : rescored a a' -> published_at a' = published_at a.
Proof. by intros [->|[v ->]]. Qed.

Section DedupeFacts.
Variable chk : str -> bool.

Lemma dedupe_item_frame d seen item s :
∃ kept, kept `sublist_of` [item] ∧
        dedupe_frame d kept s (dedupe_item chk d seen item s).2.
Proof.
destruct seen as [seen_urls seen_titles]. unfold dedupe_item.
unfold mbind, M_bind, mret, M_ret, get_dict, set_dict, append, get_list, set_list.
simpl. repeat case_decide; simpl.
- exists []. split; [apply sublist_nil_l|]. split; simpl; auto using rescored_refl.
  by rewrite app_nil_r.
- exists []. split; [apply sublist_nil_l|]. split; simpl; auto using rescored_refl.
  by rewrite app_nil_r.
- exists [item]. split; [done|]. split; simpl; auto.
  + intros l Hl. by rewrite fn_lookup_insert_ne.
  + by rewrite fn_lookup_insert.
  + intros r. destruct (decide (item = r)) as [->|Hne].
    * rewrite fn_lookup_insert. right. by eexists.
    * rewrite fn_lookup_insert_ne by done. apply rescored_refl.
Qed.

Lemma dedupe_loop_frame d xs seen s :
∃ kept, kept `sublist_of` xs ∧
        dedupe_frame d kept s (for_each xs (dedupe_item chk d) seen s).2.
Proof.
revert seen s. induction xs as [|x xs IH]; intros seen s; simpl.
- exists []. split; [done|]. split; simpl; auto using rescored_refl. by rewrite app_nil_r.
- unfold mbind, M_bind.
  destruct (dedupe_item_frame d seen x s) as (k1 & Hk1 & F1).
  destruct (dedupe_item chk d seen x s) as [seen1 s1]. simpl in *.
  destruct (IH seen1 s1) as (k2 & Hk2 & F2).
  exists (k1 ++ k2). split; [by apply (sublist_app _ [x])|].
  destruct F1, F2. split; try congruence.
  + intros l Hl. rewrite df_lists1, df_lists0; done.
  + by rewrite df_kept1, df_kept0, app_assoc.
  + intros r. eapply rescored_trans; eauto.
Qed.

Lemma normalize_and_dedupe_spec items s :
items < next_list s ->
let '(d, s') := normalize_and_dedupe chk items s in
d = next_list s ∧ next_list s' = S (next_list s) ∧
fetched s' = fetched s ∧ slept s' = slept s ∧
lists s' items = sort_desc Z.ltb (λ r, date_key (dicts s r)) (lists s items) ∧
(∀ l, l ≠ items -> l ≠ d -> lists s' l = lists s l) ∧
lists s' d ⊆ lists s items ∧
(∀ r, rescored (dicts s r) (dicts s' r)).
Proof.
intros Hit. unfold normalize_and_dedupe.
unfold mbind at 1, M_bind at 1, new_list at 1.
unfold mbind at 1, M_bind at 1, sort_list at 1, set_list at 1. cbn [dicts lists next_list fetched slept].
unfold mbind at 1, M_bind at 1, get_list at 1. cbn [dicts lists next_list fetched slept].
rewrite fn_lookup_insert.
rewrite (fn_lookup_insert_ne (lists s) (next_list s) items) by lia.
set (sorted := sort_desc Z.ltb (λ r, date_key (dicts s r)) (lists s items)).
set (s1 := mkState _ _ _ _ _).
unfold mbind at 1, M_bind at 1.
destruct (dedupe_loop_frame (next_list s) sorted (∅, ∅) s1) as (kept & Hk & F).
destruct (for_each sorted _ _ s1) as [seen s2]. simpl in F. destruct F.
unfold mbind, M_bind, sort_list, set_list, mret, M_ret. simpl in *.
split_and!; auto.
- rewrite fn_lookup_insert_ne by lia. rewrite df_lists0 by lia.
  rewrite fn_lookup_insert. done.
- intros l Hl1 Hl2. rewrite fn_lookup_insert_ne by done. rewrite df_lists0 by done.
  rewrite !fn_lookup_insert_ne; done.
- rewrite fn_lookup_insert. intros r. rewrite sort_desc_perm, df_kept0.
  rewrite fn_lookup_insert_ne by lia. rewrite fn_lookup_insert. simpl.
  intros Hr%(sublist_subseteq _ _ Hk). unfold sorted in Hr. by rewrite sort_desc_perm in Hr.
Qed.

End DedupeFacts.

(** ** The enricher *)

Lemma retexted_refl a : retexted a a.
Proof. by left. Qed.

Lemma retexted_trans a b c : retexted a b -> retexted b c -> retexted a c.
Proof.
  intros [->|(v & Hv & ->)] [->|(w & Hw & ->)];
    [by left | right; by exists w | right; by exists v | right; by exists w].
Qed.

Lemma retexted_has_text a a' : retexted a a' -> has_text a -> has_text a'.
Proof. intros [->|(v & Hv & ->)] H; [done|]. by exists v. Qed.

Lemma truthy_true x : truthy x = true <-> x ≠ [].
Proof. unfold truthy. rewrite negb_true_iff, bool_decide_eq_false. done. Qed.

Lemma truthy_nil : truthy [] = false.
Proof. done. Qed.

Section EnrichFacts.
Variable extract_result : nat -> str -> option str.

Lemma retexted_hopeless a a' : retexted a a' -> hopeless extract_result a -> hopeless extract_result a'.
Proof. by intros [->|(v & Hv & ->)]. Qed.

Lemma resolve_fulltext_content min_chars a s :
long_enough min_chars (content a) = true ->
resolve_fulltext extract_result min_chars a s = (content a, s).
Proof. unfold resolve_fulltext. by intros ->. Qed.

Lemma resolve_fulltext_hopeless min_chars a s :
hopeless extract_result a -> (resolve_fulltext extract_result min_chars a s).1 = [].
Proof.
intros (Hc & Hd & He). unfold resolve_fulltext, long_enough. rewrite Hc, Hd. simpl.
unfold mbind, M_bind, extract_fulltext. simpl.
destruct (He (length (fetched s))) as [-> | ->]; by rewrite ?Hd.
Qed.

Lemma resolve_fulltext_frame min_chars a s :
let s' := (resolve_fulltext extract_result min_chars a s).2 in
dicts s' = dicts s ∧ lists s' = lists s ∧ next_list s' = next_list s ∧
slept s' = slept s ∧ fetched s `prefix_of` fetched s'.
Proof.
unfold resolve_fulltext. repeat (destruct (long_enough _ _); [done|]).
unfold mbind, M_bind, extract_fulltext. simpl.
assert (fetched s `prefix_of` fetched s ++ [url a]) by (by eexists).
destruct (extract_result _ _) as [text|]; repeat (destruct (_ : bool)); done.
Qed.

Lemma enrich_item_frame min_chars e item s :
∃ kept, kept `sublist_of` [item] ∧
        enrich_frame extract_result e 1 kept s (enrich_item extract_result min_chars e () item s).2.
Proof.
unfold enrich_item. unfold mbind at 1, M_bind at 1, get_dict at 1.
unfold mbind at 1, M_bind at 1.
pose proof (resolve_fulltext_frame min_chars (dicts s item) s) as Hf.
pose proof (resolve_fulltext_hopeless min_chars (dicts s item) s) as Hh.
destruct (resolve_fulltext _ _ _ s) as [text s1]. simpl in Hf, Hh.
destruct Hf as (Hd & Hl & Hn & Hs & Hp).
destruct (truthy text) eqn:Ht.
- apply truthy_true in Ht. exists [item]. split; [done|].
  unfold mbind, M_bind, set_dict, append, get_list, set_list, sleep. simpl.
  split; simpl; rewrite ?Hd, ?Hl, ?Hn, ?Hs; auto.
  + intros l Hne. by rewrite fn_lookup_insert_ne.
  + by rewrite fn_lookup_insert.
  + intros r. destruct (decide (item = r)) as [->|Hne].
    * rewrite fn_lookup_insert. right. by exists text.
    * rewrite fn_lookup_insert_ne by done. apply retexted_refl.
  + intros r ->%list_elem_of_singleton. rewrite fn_lookup_insert. split.
    * by exists text.
    * intros H. by apply Hh in H.
- exists []. split; [apply sublist_nil_l|].
  unfold mbind, M_bind, mret, M_ret, sleep. simpl.
  split; simpl; rewrite ?Hd, ?Hl, ?Hn, ?Hs; auto using retexted_refl.
  + by rewrite app_nil_r.
  + intros r Hr. by apply elem_of_nil in Hr.
Qed.

Lemma enrich_loop_frame min_chars e xs s :
∃ kept, kept `sublist_of` xs ∧
        enrich_frame extract_result e (length xs) kept s
          (for_each xs (enrich_item extract_result min_chars e) () s).2.
Proof.
revert s. induction xs as [|x xs IH]; intros s; simpl.
- exists []. split; [done|]. split; simpl; auto using retexted_refl.
  + by rewrite app_nil_r.
  + intros r Hr. by apply elem_of_nil in Hr.
- unfold mbind, M_bind.
  destruct (enrich_item_frame min_chars e x s) as (k1 & Hk1 & F1).
  destruct (enrich_item _ _ e () x s) as [[] s1]. simpl in *.
  destruct (IH s1) as (k2 & Hk2 & F2).
  exists (k1 ++ k2). split; [by apply (sublist_app _ [x])|].
  destruct F1, F2. split.
  + congruence.
  + lia.
  + by etrans.
  + intros l Hl. rewrite ef_lists1, ef_lists0; done.
  + by rewrite ef_kept1, ef_kept0, app_assoc.
  + intros r. eapply retexted_trans; eauto.
  + intros r [Hr|Hr]%elem_of_app.
    * destruct (ef_text0 r Hr) as [H1 H2]. split; [|done].
      eapply retexted_has_text; eauto.
    * destruct (ef_text1 r Hr) as [H1 H2]. split; [done|].
      intros H. apply H2. eapply retexted_hopeless; [|exact H]. done.
Qed.

Lemma enrich_with_text_spec items min_chars s :
let '(e, s') := enrich_with_text extract_result items min_chars s in
e = next_list s ∧ next_list s' = S (next_list s) ∧
(items < next_list s ->
   lists s' e `sublist_of` lists s items ∧
   slept s' = length (lists s items) + slept s) ∧
(∀ l, l ≠ e -> lists s' l = lists s l) ∧
(∀ r, retexted (dicts s r) (dicts s' r)) ∧
(∀ r, r ∈ lists s' e -> has_text (dicts s' r) ∧ ¬ hopeless extract_result (dicts s r)).
Proof.
unfold enrich_with_text.
unfold mbind at 1, M_bind at 1, new_list at 1.
unfold mbind at 1, M_bind at 1, get_list at 1. cbn [dicts lists next_list fetched slept].
set (s0 := mkState _ _ _ _ _).
set (xs := <[next_list s:=[]]> (lists s) items).
unfold mbind at 1, M_bind at 1.
destruct (enrich_loop_frame min_chars (next_list s) xs s0) as (kept & Hk & F).
destruct (for_each xs _ () s0) as [[] s']. simpl in F. destruct F.
unfold mret, M_ret. simpl in *. rewrite fn_lookup_insert in ef_kept0. simpl in ef_kept0.
split_and!; auto.
- intros Hit. unfold xs in *. rewrite fn_lookup_insert_ne in * by lia.
  rewrite ef_kept0. done.
- intros l Hl. rewrite ef_lists0 by done. by rewrite fn_lookup_insert_ne.
- intros r. rewrite ef_kept0. apply ef_text0.
Qed.

End EnrichFacts.

(** ** The orchestrator *)

Lemma all_keys_ok l :
  Forall (λ a, is_Some (published_at a)) l -> ∃ ks, all_keys l = Ok ks.
Proof.
  induction 1 as [|a l [t Ht] _ [ks IH]]; simpl; [by eexists|].
  unfold orchestrator_key. rewrite Ht, IH. by eexists.
Qed.



Section OrchestratorFacts.
Variable chk : str -> bool.
Variable extract_result : nat -> str -> option str.


End OrchestratorFacts.

Lemma normalize_url_utm1 chk :
  normalize_url chk (lit "https://example.com/a?utm=1") = lit "https://example.com/a".
Proof. reflexivity. Qed.

Lemma normalize_url_utm2 chk :
  normalize_url chk (lit "https://example.com/a?utm=2") = lit "https://example.com/a".
Proof. reflexivity. Qed.

Section Steps.
Variable chk : str -> bool.
Variable extract_result : nat -> str -> option str.

Lemma dedupe_item_new d seen_urls seen_titles item s :
normalize_url chk (url (dicts s item)) ∉ seen_urls ->
normalize_title (title (dicts s item)) ∉ seen_titles ->
dedupe_item chk d (seen_urls, seen_titles) item s =
  (({[normalize_url chk (url (dicts s item))]} ∪ seen_urls,
    {[normalize_title (title (dicts s item))]} ∪ seen_titles),
   mkState (<[item := set_priority_score (score_title (title (dicts s item))) (dicts s item)]>
              (dicts s))
           (<[d := lists s d ++ [item]]> (lists s))
           (next_list s) (fetched s) (slept s)).
Proof.
intros Hu Ht. unfold dedupe_item.
unfold mbind, M_bind, mret, M_ret, get_dict, set_dict, append, get_list, set_list. simpl.
by rewrite !decide_False.
Qed.

Lemma dedupe_item_seen_url d seen_urls seen_titles item s :
normalize_url chk (url (dicts s item)) ∈ seen_urls ->
dedupe_item chk d (seen_urls, seen_titles) item s = ((seen_urls, seen_titles), s).
Proof.
intros Hu. unfold dedupe_item. unfold mbind, M_bind, mret, M_ret, get_dict. simpl.
by rewrite decide_True.
Qed.

Lemma dedupe_item_seen_title d seen_urls seen_titles item s :
normalize_title (title (dicts s item)) ∈ seen_titles ->
dedupe_item chk d (seen_urls, seen_titles) item s = ((seen_urls, seen_titles), s).
Proof.
intros Hu. unfold dedupe_item. unfold mbind, M_bind, mret, M_ret, get_dict. simpl.
case_decide; [done|]. by rewrite decide_True.
Qed.

Lemma enrich_item_content min_chars e item s :
long_enough min_chars (content (dicts s item)) = true ->
enrich_item extract_result min_chars e () item s =
  ((), mkState (<[item := set_fulltext (content (dicts s item)) (dicts s item)]> (dicts s))
               (<[e := lists s e ++ [item]]> (lists s))
               (next_list s) (fetched s) (S (slept s))).
Proof.
intros H. unfold enrich_item.
unfold mbind at 1, M_bind at 1, get_dict at 1.
unfold mbind at 1, M_bind at 1. rewrite resolve_fulltext_content by done.
apply andb_true_iff in H as [-> _]. done.
Qed.

End Steps.

(** ** The loop of the enricher, by the records as they were before it *)

Lemma retexted_fields a a' :
  retexted a a' ->
  content a' = content a ∧ description a' = description a ∧ url a' = url a ∧
  title a' = title a ∧ published_at a' = published_at a ∧
  priority_score a' = priority_score a ∧ source a' = source a ∧
  source_type a' = source_type a.
Proof. by intros [->|(v & Hv & ->)]. Qed.

Section EnrichProps.
Variable extract_result : nat -> str -> option str.

Lemma resolve_fulltext_fetched min_chars a s :
  fetched (resolve_fulltext extract_result min_chars a s).2 =
    fetched s ++ (if needs_fetch min_chars a then [url a] else []).
Proof.
  unfold resolve_fulltext, needs_fetch.
  destruct (long_enough min_chars (content a)); simpl; [by rewrite app_nil_r|].
  destruct (long_enough min_chars (description a)); simpl; [by rewrite app_nil_r|].
  unfold mbind, M_bind, extract_fulltext. simpl.
  destruct (extract_result _ _) as [text|]; repeat (destruct (_ : bool)); done.
Qed.

Lemma resolve_fulltext_sure min_chars a s :
  sure_text min_chars a -> truthy (resolve_fulltext extract_result min_chars a s).1 = true.
Proof.
  unfold resolve_fulltext, sure_text, long_enough.
  intros [H|H].
  - rewrite H. simpl. by apply andb_true_iff in H as [-> _].
  - apply truthy_true in H.
    destruct (truthy (content a) && _) eqn:E1; simpl.
    { by apply andb_true_iff in E1 as [-> _]. }
    rewrite H. simpl. destruct (min_chars <? len (description a))%Z; simpl; [done|].
    unfold mbind, M_bind, extract_fulltext. simpl.
    destruct (extract_result _ _) as [text|]; simpl; [|done].
    destruct (truthy text && _) eqn:E2; simpl; [|done].
    by apply andb_true_iff in E2 as [-> _].
Qed.

Lemma resolve_fulltext_short min_chars a s :
  long_enough min_chars (content a) = false -> description a = [] ->
  extraction_too_short extract_result min_chars (url a) ->
  (resolve_fulltext extract_result min_chars a s).1 = [].
Proof.
  intros Hc Hd He. unfold resolve_fulltext. rewrite Hc, Hd. simpl.
  unfold mbind, M_bind, extract_fulltext. simpl.
  specialize (He (length (fetched s))).
  destruct (extract_result _ _) as [text|]; [by rewrite He|done].
Qed.

(** one turn of the loop, by what [resolve_fulltext] returns *)
Lemma enrich_item_unfold min_chars e item s :
  enrich_item extract_result min_chars e () item s =
    let '(text, s1) := resolve_fulltext extract_result min_chars (dicts s item) s in
    if truthy text
    then ((), mkState (<[item := set_fulltext text (dicts s item)]> (dicts s1))
                      (<[e := lists s1 e ++ [item]]> (lists s1))
                      (next_list s1) (fetched s1) (S (slept s1)))
    else ((), mkState (dicts s1) (lists s1) (next_list s1) (fetched s1) (S (slept s1))).
Proof.
  unfold enrich_item. unfold mbind at 1, M_bind at 1, get_dict at 1.
  unfold mbind at 1, M_bind at 1.
  destruct (resolve_fulltext _ _ _ s) as [text s1].
  by destruct (truthy text).
Qed.

(** the loop over [xs], by the records as they were before it: what it
    fetches, what it surely keeps and what it surely drops *)
Lemma enrich_loop_log min_chars e xs s :
  let s' := (for_each xs (enrich_item extract_result min_chars e) () s).2 in
  fetched s' =
    fetched s ++ ((λ r, url (dicts s r)) <$>
                  filter (λ r, Is_true (needs_fetch min_chars (dicts s r))) xs) ∧
  (∀ r, r ∈ xs -> sure_text min_chars (dicts s r) -> r ∈ drop (length (lists s e)) (lists s' e)) ∧
  (∀ r, long_enough min_chars (content (dicts s r)) = false -> description (dicts s r) = [] ->
        extraction_too_short extract_result min_chars (url (dicts s r)) ->
        r ∉ drop (length (lists s e)) (lists s' e)) ∧
  (∀ r, r ∉ xs -> dicts s' r = dicts s r).
Proof.
  revert s. induction xs as [|x xs IH]; intros s; cbv zeta.
  - simpl. split_and!; [by rewrite app_nil_r| | |done].
    + by intros r ?%elem_of_nil.
    + intros r _ _ _. rewrite drop_all. apply not_elem_of_nil.
  - cbn [for_each]. unfold mbind, M_bind.
    destruct (enrich_item_frame extract_result min_chars e x s) as (k1 & Hk1 & F1).
    pose proof (enrich_item_unfold min_chars e x s) as Hun.
    pose proof (resolve_fulltext_fetched min_chars (dicts s x) s) as Hfe.
    pose proof (resolve_fulltext_sure min_chars (dicts s x) s) as Hsu.
    pose proof (resolve_fulltext_short min_chars (dicts s x) s) as Hsh.
    pose proof (resolve_fulltext_frame extract_result min_chars (dicts s x) s) as Hfr.
    destruct (resolve_fulltext _ _ (dicts s x) s) as [text s0].
    destruct (enrich_item _ _ e () x s) as [[] s1]. simpl in *.
    destruct Hfr as (Hd0 & Hl0 & _).
    destruct (IH s1) as (I1 & I2 & I3 & I4). clear IH.
    set (s' := (for_each xs _ () s1).2) in *.
    destruct F1 as [_ _ _ _ _ Hret _].
    assert (∀ r, content (dicts s1 r) = content (dicts s r) ∧
                 description (dicts s1 r) = description (dicts s r) ∧
                 url (dicts s1 r) = url (dicts s r)) as Hsame.
    { intros r. destruct (retexted_fields _ _ (Hret r)) as (? & ? & ? & _). done. }
    assert (∀ r, needs_fetch min_chars (dicts s1 r) = needs_fetch min_chars (dicts s r)) as Hneed.
    { intros r. unfold needs_fetch. destruct (Hsame r) as (-> & -> & _). done. }
    assert (fetched s1 = fetched s0 ∧
            lists s1 e = lists s e ++ (if truthy text then [x] else []) ∧
            (∀ r, r ≠ x -> dicts s1 r = dicts s r)) as (Hf1 & Hl1 & Hd1).
    { destruct (truthy text); injection Hun as Hs1; rewrite Hs1; simpl; rewrite ?Hl0, ?Hd0.
      - split_and!; [done|by rewrite fn_lookup_insert|].
        intros r Hr. by rewrite fn_lookup_insert_ne.
      - split_and!; [done|by rewrite app_nil_r|done]. }
    assert (length (lists s1 e) = length (lists s e) + length (if truthy text then [x] else []))
      as Hlen by (by rewrite Hl1, length_app).
    destruct (enrich_loop_frame extract_result min_chars e xs s1) as (k2 & Hk2 & F2).
    fold s' in F2. destruct F2 as [_ _ _ _ Hkept2 _ _].
    assert (drop (length (lists s e)) (lists s' e)
            = (if truthy text then [x] else []) ++ drop (length (lists s1 e)) (lists s' e)) as Hdrop.
    { rewrite Hkept2, Hl1, <- !app_assoc, !drop_app_length.
      rewrite app_assoc, drop_app_length. done. }
    split_and!.
    + rewrite I1, Hf1, Hfe, <- app_assoc. f_equal.
      rewrite filter_cons. destruct (needs_fetch min_chars (dicts s x)) eqn:En; simpl.
      * f_equal.
        rewrite (list_filter_iff (λ r, Is_true (needs_fetch min_chars (dicts s1 r)))
                   (λ r, Is_true (needs_fetch min_chars (dicts s r))))
          by (intros r; by rewrite Hneed).
        apply list_fmap_ext. intros i r _. by destruct (Hsame r) as (_ & _ & ->).
      * rewrite (list_filter_iff (λ r, Is_true (needs_fetch min_chars (dicts s1 r)))
                   (λ r, Is_true (needs_fetch min_chars (dicts s r))))
          by (intros r; by rewrite Hneed).
        apply list_fmap_ext. intros i r _. by destruct (Hsame r) as (_ & _ & ->).
    + intros r Hr Hs. rewrite Hdrop. apply elem_of_app.
      destruct (decide (r ∈ xs)) as [Hin|Hin].
      * right. apply I2; [done|]. destruct (Hsame r) as (Ec & Ed & _).
        unfold sure_text. by rewrite Ec, Ed.
      * left. apply elem_of_cons in Hr as [->|?]; [|done].
        rewrite Hsu by done. left.
    + intros r Hc Hd He. rewrite Hdrop. intros [Hin|Hin]%elem_of_app.
      * destruct (truthy text) eqn:Et; [|by apply elem_of_nil in Hin].
        apply list_elem_of_singleton in Hin as ->.
        rewrite Hsh in Et by done. done.
      * revert Hin. destruct (Hsame r) as (Ec & Ed & Eu).
        apply I3; by rewrite ?Ec, ?Ed, ?Eu.
    + intros r Hr. rewrite I4 by (intros ?; apply Hr; by right).
      apply Hd1. intros ->. apply Hr. left.
Qed.

End EnrichProps.

Section EnrichUnfold.
Variable extract_result : nat -> str -> option str.

(** [enrich_with_text] as its loop, run on the state that holds the new
    output list *)
Lemma enrich_with_text_unfold items min_chars s :
  let s0 := mkState (dicts s) (<[next_list s := []]> (lists s)) (S (next_list s))
                    (fetched s) (slept s) in
  enrich_with_text extract_result items min_chars s =
    (next_list s,
     (for_each (lists s0 items) (enrich_item extract_result min_chars (next_list s)) () s0).2).
Proof.
  cbv zeta. unfold enrich_with_text.
  unfold mbind at 1, M_bind at 1, new_list at 1.
  unfold mbind at 1, M_bind at 1, get_list at 1. cbn [dicts lists next_list fetched slept].
  unfold mbind at 1, M_bind at 1.
  by destruct (for_each _ _ () _) as [[] s'].
Qed.

End EnrichUnfold.

Section EnrichContent.
Variable extract_result : nat -> str -> option str.

Lemma enrich_item_other min_chars e item s r :
r ≠ item -> dicts (enrich_item extract_result min_chars e () item s).2 r = dicts s r.
Proof.
intros Hr. rewrite enrich_item_unfold.
pose proof (resolve_fulltext_frame extract_result min_chars (dicts s item) s) as Hf.
destruct (resolve_fulltext _ _ _ s) as [text s1]. simpl in Hf. destruct Hf as (Hd & _).
destruct (truthy text); simpl; rewrite Hd; [|done]. by rewrite fn_lookup_insert_ne.
Qed.

(** a record with long content that the loop visits, or that carries its
content as [fulltext] already, carries it after the loop *)
Lemma enrich_loop_content min_chars e xs s r :
long_enough min_chars (content (dicts s r)) = true ->
r ∈ xs ∨ fulltext (dicts s r) = Some (content (dicts s r)) ->
fulltext (dicts (for_each xs (enrich_item extract_result min_chars e) () s).2 r)
  = Some (content (dicts s r)).
Proof.
revert s. induction xs as [|x xs IH]; intros s Hlong Hr.
- destruct Hr as [Hr|Hr]; [by apply elem_of_nil in Hr|done].
- cbn [for_each]. unfold mbind, M_bind.
  pose proof (enrich_item_content extract_result min_chars e x s) as Hx.
  pose proof (enrich_item_other min_chars e x s r) as Ho.
  destruct (enrich_item _ _ e () x s) as [[] s1]. simpl in Ho.
  destruct (decide (r = x)) as [->|Hne].
  + injection (Hx Hlong) as E.
    assert (dicts s1 x = set_fulltext (content (dicts s x)) (dicts s x)) as Hs1.
    { rewrite E. simpl. by rewrite fn_lookup_insert. }
    assert (content (dicts s1 x) = content (dicts s x)) as Hc by (by rewrite Hs1).
    rewrite <- Hc. apply IH; [by rewrite Hc|]. right. by rewrite Hs1.
  + specialize (Ho Hne). rewrite <- Ho. apply IH; rewrite Ho; [done|].
    destruct Hr as [[->|Hr]%elem_of_cons|Hr]; [done|by left|by right].
Qed.

End EnrichContent.

Section EndToEnd.
Variable chk : str -> bool.
Variable extract_result : nat -> str -> option str.

#[local] Arguments normalize_url : simpl never.
#[local] Arguments normalize_title : simpl never.
#[local] Arguments count_keywords : simpl never.
#[local] Arguments lit : simpl never.
#[local] Arguments sort_desc : simpl never.

Theorem end_to_end_same_url articles r1 r2 T max_articles min_chars s :
articles < next_list s ->
lists s articles = [r1; r2] ∨ lists s articles = [r2; r1] ->
url (dicts s r1) = lit "https://example.com/a?utm=1" ->
url (dicts s r2) = lit "https://example.com/a?utm=2" ->
title (dicts s r1) ≠ title (dicts s r2) ->
length (content (dicts s r1)) = 1000 ->
length (content (dicts s r2)) = 1000 ->
published_at (dicts s r1) = Some T ->
published_at (dicts s r2) = Some (T + 3600000000)%Z ->
(1 <= max_articles)%Z -> (min_chars < 1000)%Z ->
∃ out s',
  process_articles chk extract_result articles max_articles min_chars s = Ok (out, s') ∧
  lists s' out = [r2] ∧
  dicts s' r2 = set_fulltext (content (dicts s r2))
                  (set_priority_score (score_title (title (dicts s r2))) (dicts s r2)).
Proof.
intros Hit Hl Hu1 Hu2 Ht Hc1 Hc2 Hp1 Hp2 Hmax Hmin.
assert (r1 ≠ r2) as Hne by (intros ->; rewrite Hu1 in Hu2; discriminate).
assert (sort_desc Z.ltb (λ r, date_key (dicts s r)) (lists s articles) = [r2; r1]) as Hsort.
{ unfold sort_desc, date_key. destruct Hl as [-> | ->]; simpl; rewrite Hp1, Hp2; simpl.
  - by rewrite (proj2 (Z.ltb_lt _ _)) by lia.
  - by rewrite (proj2 (Z.ltb_ge _ _)) by lia. }
unfold process_articles, select_articles, normalize_and_dedupe.
unfold mbind at 1, M_bind at 1, new_list at 1.
unfold mbind at 1, M_bind at 1, sort_list at 1, set_list at 1. cbn [dicts lists next_list fetched slept].
unfold mbind at 1, M_bind at 1, get_list at 1. cbn [dicts lists next_list fetched slept].
rewrite fn_lookup_insert.
rewrite (fn_lookup_insert_ne (lists s) (next_list s) articles) by lia.
rewrite Hsort.
unfold for_each. unfold mbind at 1, M_bind at 1. unfold mbind at 1, M_bind at 1.
rewrite dedupe_item_new by set_solver. cbn [dicts lists next_list fetched slept].
unfold mbind at 1, M_bind at 1.
rewrite dedupe_item_seen_url.
2:{ cbn [dicts]. rewrite fn_lookup_insert_ne by done. rewrite Hu1, Hu2.
    rewrite normalize_url_utm1, normalize_url_utm2. set_solver. }
unfold mret, M_ret, mbind, M_bind, sort_list, set_list, read.
cbn [dicts lists next_list fetched slept].
rewrite !fn_lookup_insert.
rewrite (fn_lookup_insert_ne _ articles (next_list s)) by lia.
rewrite !fn_lookup_insert. rewrite app_nil_l.
change (sort_desc pair_ltb ?k [r2]) with [r2].
cbn [map]. rewrite !fn_lookup_insert.
cbn [all_keys]. unfold orchestrator_key.
change (published_at (set_priority_score ?v ?a)) with (published_at a).
rewrite Hp2.
change (sort_desc Z.ltb ?k [r2]) with [r2].
assert ((max_articles <? len [r2])%Z = false) as -> by (apply Z.ltb_ge; unfold len; simpl; lia).
unfold enrich_with_text.
unfold mbind at 1, M_bind at 1, new_list at 1.
unfold mbind at 1, M_bind at 1, get_list at 1. cbn [dicts lists next_list fetched slept].
rewrite (fn_lookup_insert_ne _ (S (next_list s)) (next_list s)) by lia.
rewrite !fn_lookup_insert.
unfold for_each. unfold mbind at 1, M_bind at 1. unfold mbind at 1, M_bind at 1.
rewrite enrich_item_content.
2:{ cbn [dicts]. rewrite fn_lookup_insert.
    change (content (set_priority_score ?v ?a)) with (content a).
    unfold long_enough, len. rewrite Hc2. apply andb_true_iff. split; [|apply Z.ltb_lt; lia].
    apply truthy_true. intros E. by rewrite E in Hc2. }
unfold mret, M_ret. cbn [dicts lists next_list fetched slept].
rewrite !fn_lookup_insert. rewrite app_nil_l.
eexists _, _. split; [reflexivity|]. cbn [dicts lists].
rewrite !fn_lookup_insert. done.
Abort.
End EndToEnd.

Lemma StronglySorted_mono {A} (R1 R2 : relation A) l :
  (∀ x y, R1 x y -> R2 x y) -> StronglySorted R1 l -> StronglySorted R2 l.
Proof.
  intros H. induction 1 as [|x l _ IH Hx]; constructor; [done|].
  eapply Forall_impl; [exact Hx|]. auto.
Qed.

Section Claims.
Variable chk : str -> bool.
Variable extract_result : nat -> str -> option str.

(** C9: [normalize_and_dedupe] sorts the caller's list object in place.
  After the call that list holds the same references as before, and no
  [published_at] has changed; the list is ordered by [published_at]
  descending, each record published no earlier than every record behind
  it, a record without [published_at] counting as [datetime.min]; and
  the sort is stable, the records with one and the same [published_at]
  keep their order.  The list returned is a new object, none of those
  allocated before the call, and no other allocated list changes. *)
Theorem dedupe_sorts_caller_list_in_place items s :
items < next_list s ->
let '(d, s') := normalize_and_dedupe chk items s in
lists s' items ≡ₚ lists s items ∧
(∀ r, published_at (dicts s' r) = published_at (dicts s r)) ∧
StronglySorted
  (λ r1 r2, match published_at (dicts s' r1), published_at (dicts s' r2) with
            | Some t1, Some t2 => (t2 <= t1)%Z
            | Some t1, None => (datetime_min <= t1)%Z
            | None, Some t2 => (t2 <= datetime_min)%Z
            | None, None => True
            end)
  (lists s' items) ∧
(∀ t, filter (λ r, published_at (dicts s' r) = t) (lists s' items) =
      filter (λ r, published_at (dicts s' r) = t) (lists s items)) ∧
lists s' items = sort_desc Z.ltb (λ r, date_key (dicts s r)) (lists s items) ∧
¬ d < next_list s ∧ d ≠ items ∧
(∀ l, l < next_list s -> l ≠ items -> lists s' l = lists s l).
Proof.
intros Hit. pose proof (normalize_and_dedupe_spec chk items s Hit) as H.
destruct (normalize_and_dedupe chk items s) as [d s'].
destruct H as (-> & Hn & _ & _ & Hitems & Hother & _ & Hd).
assert (∀ r, published_at (dicts s' r) = published_at (dicts s r)) as Hdate.
{ intros r. apply rescored_date, Hd. }
split_and!; [|done| | |done|lia|lia|].
- rewrite Hitems. apply sort_desc_perm.
- rewrite Hitems.
  eapply StronglySorted_mono;
    [|apply (sort_desc_sorted Z.ltb _ Zltb_asym Zltb_not_trans)].
  intros x y. unfold not_below, date_key. rewrite !Hdate.
  intros Hxy%Z.ltb_ge.
  destruct (published_at (dicts s x)), (published_at (dicts s y)); simpl in *; done.
- intros t. rewrite Hitems. apply sort_desc_stable.
  intros x y Hx Hy. unfold date_key. rewrite <- !Hdate, Hx, Hy. apply Z.ltb_irrefl.
- intros l Hl Hne. apply Hother; [done|lia].
Qed.

(** C2: for every input list and every [min_chars], each record in the
  output of [enrich_with_text] carries a non-empty [fulltext]; a record
  with empty content and empty description whose extraction fails or
  yields nothing is not in the output; and the same holds for whatever
  [process_articles] returns. *)
Theorem enriched_records_carry_fulltext items min_chars s :
let '(enriched, s') := enrich_with_text extract_result items min_chars s in
(∀ r, r ∈ lists s' enriched ->
      ∃ text, fulltext (dicts s' r) = Some text ∧ text ≠ []) ∧
(∀ r, content (dicts s r) = [] -> description (dicts s r) = [] ->
      (∀ n, extract_result n (url (dicts s r)) = None ∨
            extract_result n (url (dicts s r)) = Some []) ->
      r ∉ lists s' enriched) ∧
(∀ articles max_articles,
   match process_articles chk extract_result articles max_articles min_chars s with
   | Ok (out, s'') =>
       ∀ r, r ∈ lists s'' out -> ∃ text, fulltext (dicts s'' r) = Some text ∧ text ≠ []
   | Raise _ => True
   end).
Proof.
pose proof (enrich_with_text_spec extract_result items min_chars s) as H.
destruct (enrich_with_text extract_result items min_chars s) as [e s'].
destruct H as (_ & _ & _ & _ & _ & Ht).
split_and!.
- intros r Hr. by apply Ht.
- intros r Hc Hd He Hr. by apply (Ht r Hr).
- intros articles max_articles. unfold process_articles.
  destruct (select_articles chk articles max_articles s) as [[l s1]|]; [|done].
  pose proof (enrich_with_text_spec extract_result l min_chars s1) as H.
  destruct (enrich_with_text extract_result l min_chars s1) as [e1 s2].
  destruct H as (_ & _ & _ & _ & _ & Ht1).
  destruct (lists s2 e1) as [|r0 rs] eqn:E.
  + unfold new_list. simpl. rewrite fn_lookup_insert. intros r Hr. by apply elem_of_nil in Hr.
  + intros r Hr. rewrite E in Hr. by apply Ht1.
Qed.

(** C4: [enrich_with_text] on a list that holds a record whose content
  is longer than [min_chars] (as 600 characters against 500) sets the
  [fulltext] of that record to its content verbatim and keeps the record
  in its output.  The calls of [extract_fulltext] during the run are
  exactly those for the records of the list whose content and
  description both fail the threshold, in order; the record is not one
  of them, and on a list that holds this record only nothing is fetched. *)
Theorem long_content_is_used_verbatim items item min_chars s :
items < next_list s ->
item ∈ lists s items ->
(0 <= min_chars < Z.of_nat (length (content (dicts s item))))%Z ->
let '(enriched, s') := enrich_with_text extract_result items min_chars s in
fulltext (dicts s' item) = Some (content (dicts s item)) ∧
item ∈ lists s' enriched ∧
fetched s' =
  fetched s ++ map (λ r, url (dicts s r))
                   (filter (λ r, Is_true (needs_fetch min_chars (dicts s r))) (lists s items)) ∧
needs_fetch min_chars (dicts s item) = false ∧
(lists s items = [item] -> fetched s' = fetched s).
Proof.
intros Hit Hin Hlen.
assert (long_enough min_chars (content (dicts s item)) = true) as Hlong.
{ unfold long_enough, len. apply andb_true_iff. split; [|apply Z.ltb_lt; lia].
  apply truthy_true. intros E. rewrite E in Hlen. simpl in Hlen. lia. }
assert (needs_fetch min_chars (dicts s item) = false) as Hneed.
{ unfold needs_fetch. by rewrite Hlong. }
rewrite enrich_with_text_unfold. cbn [lists].
rewrite fn_lookup_insert_ne by lia.
set (s0 := mkState _ _ _ _ _).
destruct (enrich_loop_log extract_result min_chars (next_list s) (lists s items) s0)
  as (Hlog & Hsure & _).
pose proof (enrich_loop_content extract_result min_chars (next_list s) (lists s items) s0 item Hlong
              (or_introl Hin)) as Htext.
split_and!; [exact Htext| |exact Hlog|exact Hneed|].
- specialize (Hsure item Hin (or_introl Hlong)).
  unfold s0 in Hsure at 1. cbn [lists] in Hsure. rewrite fn_lookup_insert in Hsure.
  by rewrite drop_0 in Hsure.
- intros E. rewrite Hlog, E, filter_cons, decide_False; [by rewrite app_nil_r|].
  unfold s0. cbn [dicts]. rewrite Hneed. exact id.
Qed.


End Claims.

(** ** Scoring *)

Lemma lower_char_not_A c : lower_char c ≠ "A"%char.
Proof.
  intros H. pose proof (lower_char_not_upper c) as Hu. by rewrite H in Hu.
Qed.

Lemma filter_filter_implied {A} (P Q : A -> Prop)
    `{∀ x, Decision (P x)} `{∀ x, Decision (Q x)} (l : list A) :
  (∀ x, P x -> Q x) -> filter P (filter Q l) = filter P l.
Proof.
  intros HPQ. induction l as [|x l IH]; [done|].
  destruct (decide (Q x)) as [HQ|HQ].
  - rewrite (filter_cons_True Q) by done.
    destruct (decide (P x)) as [HP|HP].
    + by rewrite !(filter_cons_True P), IH.
    + by rewrite !(filter_cons_False P), IH.
  - rewrite (filter_cons_False Q) by done.
    rewrite (filter_cons_False P); [done|]. intros HP. by apply HQ, HPQ.
Qed.

Lemma keyword_AI_never_in_lower t : contains (lit "AI") (lower t) = false.
Proof.
  destruct (contains (lit "AI") (lower t)) eqn:E; [|done].
  change (lit "AI") with ("A"%char :: lit "I") in E.
  apply contains_head in E. unfold lower in E.
  apply list_elem_of_fmap in E as (c & Hc & _). symmetry in Hc.
  by apply lower_char_not_A in Hc.
Qed.

(** C10: the vocabulary keyword "AI" is never a substring of a lowercased
    title, so it adds nothing to any score: the score of every title is
    the score under the vocabulary without "AI".  A title about AI scores
    through other keywords only, as "artificial intelligence". *)
Theorem keyword_AI_contributes_nothing (t : str) :
  contains (lit "AI") (lower t) = false ∧
  score_title t =
    count_keywords (filter (λ keyword, keyword ≠ lit "AI") priority_keywords) (lower t) ∧
  score_title (lit "AI") = 0%Z ∧
  score_title (lit "Artificial Intelligence") = 1%Z.
Proof.
  split_and!; [apply keyword_AI_never_in_lower | | done..].
  unfold score_title, count_keywords. f_equal. symmetry.
  apply filter_filter_implied. intros k Hk ->.
  by rewrite keyword_AI_never_in_lower in Hk.
Qed.

(** C6, the code against the claim: the vocabulary lists "trade" twice, so
    the title "trade" scores 2 although one distinct keyword matches it;
    the score is the number of matching list entries, not of distinct
    keywords. *)
Theorem duplicated_keyword_counts_twice :
  score_title (lit "trade") = 2%Z ∧
  distinct_keyword_matches (lit "trade") = 1%Z ∧
  filter (λ keyword, keyword = lit "trade") priority_keywords = [lit "trade"; lit "trade"].
Proof. by vm_compute. Qed.

(** ** The orchestrator's second sort *)

Section Undated.
Variable chk : str -> bool.
Variable extract_result : nat -> str -> option str.


End Undated.

(** C7, the code against the claim: the deduplicator sorts a record
    without [published_at] as the oldest and returns, but the sort of the
    orchestrator raises [AttributeError] at it, and so does the run. *)
Theorem undated_record_aborts_orchestrator :
  (let '(d, s1) := normalize_and_dedupe no_bracketed_hosts 0 undated_state in
   lists s1 0 = [0] ∧ lists s1 d = [0] ∧ published_at (dicts s1 0) = None) ∧
  select_articles no_bracketed_hosts 0 5 undated_state = Raise AttributeError ∧
  process_articles no_bracketed_hosts no_extraction 0 5 500 undated_state =
    Raise AttributeError.
Proof. by vm_compute. Qed.

(** ** The adapter *)


(** C8, the code against the claim: a reply with status "ok" whose article
    has a null description makes the NewsAPI adapter raise
    [AttributeError]; its [except] clause catches request errors only. *)
Theorem null_description_escapes_adapter fromisoformat now :
  Adapter.fetch_newsapi_articles fromisoformat now (lit "key")
    Adapter.reply_with_null_description = Raise AttributeError.
Proof. reflexivity. Qed.

(** ** C5: the canonicalizers *)

Lemma normalize_title_idempotent t :
  normalize_title (normalize_title t) = normalize_title t.
Proof.
  pose proof (normalize_title_not_upper t) as Hu.
  unfold normalize_title at 1. rewrite strip_suffix_none.
  - rewrite lower_fixed by done. apply strip_idemp.
  - eapply Forall_impl; [apply suffixes_have_upper|].
    intros suf (c & Hc & Hup). exists c. split; [done|].
    intros Hin. rewrite Forall_forall in Hu. apply Hu in Hin. congruence.
Qed.

Lemma normalize_url_schemeless chk :
  normalize_url chk (lit "example.com/a") = lit "://example.com/a" ∧
  normalize_url chk (lit "://example.com/a") = lit "://://example.com/a".
Proof. done. Qed.

(** C5, as stated, fails for URLs: the parser finds no scheme in
    "example.com/a", which becomes "://example.com/a" and then
    "://://example.com/a". *)
Lemma normalize_url_not_idempotent :
  normalize_url no_bracketed_hosts (lit "example.com/a") = lit "://example.com/a" ∧
  normalize_url no_bracketed_hosts (normalize_url no_bracketed_hosts (lit "example.com/a"))
    = lit "://://example.com/a" ∧
  normalize_url no_bracketed_hosts (normalize_url no_bracketed_hosts (lit "example.com/a"))
    ≠ normalize_url no_bracketed_hosts (lit "example.com/a").
Proof. by vm_compute. Qed.

(** C5, amended: the title canonicalizer is idempotent on every string.
    The URL canonicalizer is idempotent on the strings in which the
    parser finds a scheme and on those it rejects, which it returns
    unchanged, and on no others: a string without a scheme becomes
    "://", netloc and path, and a second application gives yet another
    string. *)
Theorem canonicalizers_idempotent chk (t u : str) :
  normalize_title (normalize_title t) = normalize_title t ∧
  (∀ sch netloc path, urlparse chk u = Ok (sch, netloc, path) -> sch ≠ [] ->
     normalize_url chk (normalize_url chk u) = normalize_url chk u) ∧
  (∀ e, urlparse chk u = Raise e ->
     normalize_url chk u = u ∧
     normalize_url chk (normalize_url chk u) = normalize_url chk u) ∧
  (∀ netloc path, urlparse chk u = Ok ([], netloc, path) ->
     normalize_url chk u = lit "://" ++ netloc ++ path ∧
     normalize_url chk (normalize_url chk u) ≠ normalize_url chk u).
Proof.
  split_and!.
  - apply normalize_title_idempotent.
  - intros sch netloc path. apply normalize_url_idempotent_with_scheme.
  - intros e E. split; [|by eapply normalize_url_idempotent_on_error].
    unfold normalize_url. by rewrite E.
  - intros netloc path. apply normalize_url_moves_schemeless.
Qed.

Lemma canonicalizers_idempotent_witness :
  normalize_title (normalize_title (lit "  Big News | Wired")) =
    normalize_title (lit "  Big News | Wired") ∧
  normalize_url no_bracketed_hosts
    (normalize_url no_bracketed_hosts (lit "https://example.com/a?utm=1")) =
    normalize_url no_bracketed_hosts (lit "https://example.com/a?utm=1") ∧
  normalize_url no_bracketed_hosts (lit "http://[::1") = lit "http://[::1" ∧
  normalize_url no_bracketed_hosts (lit "//a;b") = lit "://a;b".
Proof.
  destruct (canonicalizers_idempotent no_bracketed_hosts (lit "  Big News | Wired")
              (lit "https://example.com/a?utm=1")) as (H1 & H2 & _).
  destruct (canonicalizers_idempotent no_bracketed_hosts [] (lit "http://[::1"))
    as (_ & _ & H3 & _).
  destruct (canonicalizers_idempotent no_bracketed_hosts [] (lit "//a;b"))
    as (_ & _ & _ & H4).
  split_and!.
  - exact H1.
  - apply (H2 (lit "https") (lit "example.com") (lit "/a")); [reflexivity|discriminate].
  - apply (H3 ValueError). reflexivity.
  - apply (H4 (lit "a;b") []). reflexivity.
Defined.

(** ** Closed instances *)



Lemma long_content_is_used_verbatim_witness :
  0 < next_list long_content_state ∧
  0 ∈ lists long_content_state 0 ∧
  (0 <= 500 < Z.of_nat (length (content (dicts long_content_state 0%nat))))%Z ∧
  (let '(enriched, s') := enrich_with_text no_extraction 0 500 long_content_state in
   fulltext (dicts s' 0) = Some (replicate 600 "x"%char) ∧
   lists s' enriched = [0] ∧ fetched s' = []).
Proof.
  assert (0 < next_list long_content_state) as H1 by (simpl; lia).
  assert (0 ∈ lists long_content_state 0) as H2 by (simpl; left).
  assert (0 <= 500 < Z.of_nat (length (content (dicts long_content_state 0%nat))))%Z as H3
    by (simpl; lia).
  split; [exact H1|]. split; [exact H2|]. split; [exact H3|].
  pose proof (long_content_is_used_verbatim no_extraction 0 0 500 long_content_state H1 H2 H3)
    as P.
  destruct (enrich_with_text no_extraction 0 500 long_content_state) as [e s'] eqn:E.
  destruct P as (P1 & _ & _ & _ & P5).
  split_and!; [exact P1| |by apply P5].
  change s' with (e, s').2. change e with (e, s').1 at 2. rewrite <- E. reflexivity.
Defined.

Lemma dedupe_sorts_caller_list_witness :
  0 < next_list ten_state ∧
  lists ten_state 0 = [0; 1; 2; 3; 4; 5; 6; 7; 8; 9] ∧
  lists (normalize_and_dedupe no_bracketed_hosts 0 ten_state).2 0
    = [9; 8; 7; 6; 5; 4; 3; 2; 1; 0].
Proof.
  assert (0 < next_list ten_state) as H by (simpl; lia).
  split; [exact H|]. split; [reflexivity|].
  pose proof (dedupe_sorts_caller_list_in_place no_bracketed_hosts 0 ten_state H) as P.
  destruct (normalize_and_dedupe no_bracketed_hosts 0 ten_state) as [d s'].
  destruct P as (_ & _ & _ & _ & P & _). simpl. rewrite P. reflexivity.
Defined.

(** * Further properties *)

(** ** The walk of the deduplicator *)

Section WalkFacts.
Variables ku kt : ref -> str.

Lemma dedupe_walk_sublist xs su st : dedupe_walk ku kt xs su st `sublist_of` xs.
Proof.
  revert su st. induction xs as [|x xs IH]; intros su st; simpl; [done|].
  repeat case_decide.
  - by apply sublist_cons.
  - by apply sublist_cons.
  - by apply sublist_skip.
Qed.

Lemma dedupe_walk_unseen xs su st r :
  r ∈ dedupe_walk ku kt xs su st -> (ku r ∉ su) ∧ (kt r ∉ st).
Proof.
  revert su st. induction xs as [|x xs IH]; intros su st; simpl.
  - by intros ?%elem_of_nil.
  - repeat case_decide; [by auto..|].
    intros [->|Hr]%elem_of_cons; [done|].
    apply IH in Hr as [Hu Ht]. rewrite not_elem_of_union in Hu, Ht. tauto.
Qed.

Lemma dedupe_walk_NoDup xs su st :
  NoDup (ku <$> dedupe_walk ku kt xs su st) ∧ NoDup (kt <$> dedupe_walk ku kt xs su st).
Proof.
  revert su st. induction xs as [|x xs IH]; intros su st; simpl.
  - split; constructor.
  - repeat case_decide; [by auto..|].
    destruct (IH ({[ku x]} ∪ su) ({[kt x]} ∪ st)) as [H1 H2].
    split; simpl; constructor; try done.
    + intros (r & Hr & [Hin _]%dedupe_walk_unseen)%list_elem_of_fmap.
      apply Hin, elem_of_union. left. by apply elem_of_singleton.
    + intros (r & Hr & [_ Hin]%dedupe_walk_unseen)%list_elem_of_fmap.
      apply Hin, elem_of_union. left. by apply elem_of_singleton.
Qed.

(** every record of the list has a kept record with one of its keys that
    stands at or before it, unless one of its keys was seen before *)
Lemma dedupe_walk_cover (R : relation ref) xs su st r :
  StronglySorted R xs -> r ∈ xs ->
  ku r ∈ su ∨ kt r ∈ st ∨
  ∃ k, k ∈ dedupe_walk ku kt xs su st ∧ (ku k = ku r ∨ kt k = kt r) ∧ (k = r ∨ R k r).
Proof.
  intros Hs. revert su st. induction Hs as [|x xs Hs IH Hx]; intros su st Hr.
  - by apply elem_of_nil in Hr.
  - simpl. apply elem_of_cons in Hr as [->|Hr].
    + repeat case_decide; [by auto..|].
      right; right. exists x. split; [left|]. by auto.
    + rewrite Forall_forall in Hx.
      repeat case_decide; [by apply IH..|].
      destruct (IH ({[ku x]} ∪ su) ({[kt x]} ∪ st) Hr) as [Hc|[Hc|(k & Hk & Hkey & Hrel)]].
      * apply elem_of_union in Hc as [Hc%elem_of_singleton|Hc]; [|by auto].
        right; right. exists x. split; [left|]. by auto.
      * apply elem_of_union in Hc as [Hc%elem_of_singleton|Hc]; [|by auto].
        right; right. exists x. split; [left|]. by auto.
      * right; right. exists k. split; [by right|]. by auto.
Qed.

End WalkFacts.

Lemma dedupe_walk_ext ku1 kt1 ku2 kt2 xs su st :
  (∀ r, ku1 r = ku2 r) -> (∀ r, kt1 r = kt2 r) ->
  dedupe_walk ku1 kt1 xs su st = dedupe_walk ku2 kt2 xs su st.
Proof.
  intros Hu Ht. revert su st. induction xs as [|x xs IH]; intros su st; simpl; [done|].
  rewrite Hu, Ht. repeat case_decide; by rewrite ?IH.
Qed.

Section LoopWalk.
Variable chk : str -> bool.

(** the loop of the deduplicator keeps the records of the walk and scores
    them; it changes nothing else *)
Lemma dedupe_loop_walk d xs su st s :
  let kept := dedupe_walk (url_key chk s) (title_key s) xs su st in
  let s' := (for_each xs (dedupe_item chk d) (su, st) s).2 in
  lists s' d = lists s d ++ kept ∧
  (∀ r, dicts s' r = if decide (r ∈ kept) then scored (dicts s r) else dicts s r).
Proof.
  revert su st s. induction xs as [|x xs IH]; intros su st s; cbv zeta.
  - simpl. split; [by rewrite app_nil_r|]. intros r. done.
  - cbn [for_each dedupe_walk]. unfold mbind, M_bind.
    destruct (decide (url_key chk s x ∈ su)) as [Hu|Hu].
    { rewrite dedupe_item_seen_url by done. apply IH. }
    destruct (decide (title_key s x ∈ st)) as [Ht|Ht].
    { rewrite dedupe_item_seen_title by done. apply IH. }
    rewrite dedupe_item_new by done. fold (url_key chk s x) (title_key s x).
    set (s1 := mkState _ _ _ _ _).
    destruct (IH ({[url_key chk s x]} ∪ su) ({[title_key s x]} ∪ st) s1) as [H1 H2].
    assert (dedupe_walk (url_key chk s1) (title_key s1) xs
              ({[url_key chk s x]} ∪ su) ({[title_key s x]} ∪ st)
            = dedupe_walk (url_key chk s) (title_key s) xs
              ({[url_key chk s x]} ∪ su) ({[title_key s x]} ∪ st)) as Hext.
    { apply dedupe_walk_ext; intros r; unfold url_key, title_key, s1; simpl;
        (destruct (decide (x = r)) as [->|Hne];
         [by rewrite fn_lookup_insert | by rewrite fn_lookup_insert_ne]). }
    rewrite Hext in H1, H2. split.
    + rewrite H1. unfold s1; simpl. rewrite fn_lookup_insert. by rewrite <- app_assoc.
    + intros r. rewrite H2. unfold s1; simpl.
      destruct (decide (x = r)) as [->|Hne].
      * rewrite fn_lookup_insert. rewrite (decide_True (P := r ∈ r :: _)) by left.
        rewrite decide_False; [done|].
        intros [Hin _]%dedupe_walk_unseen.
        apply Hin, elem_of_union. left. by apply elem_of_singleton.
      * rewrite fn_lookup_insert_ne by done.
        destruct (decide (r ∈ dedupe_walk _ _ xs _ _)) as [Hin|Hin].
        -- by rewrite decide_True by (by right).
        -- rewrite decide_False; [done|]. intros [?|?]%elem_of_cons; congruence.
Qed.

(** what [normalize_and_dedupe] returns, in one equation: the walk over the
    list sorted by date, sorted by rank *)
Lemma normalize_and_dedupe_walk items s :
  items < next_list s ->
  let sorted := sort_desc Z.ltb (λ r, date_key (dicts s r)) (lists s items) in
  let kept := dedupe_walk (url_key chk s) (title_key s) sorted ∅ ∅ in
  let '(d, s') := normalize_and_dedupe chk items s in
  lists s' d = sort_desc pair_ltb (λ r, rank_key (dicts s' r)) kept ∧
  (∀ r, dicts s' r = if decide (r ∈ kept) then scored (dicts s r) else dicts s r).
Proof.
  intros Hit sorted kept. unfold normalize_and_dedupe.
  unfold mbind at 1, M_bind at 1, new_list at 1.
  unfold mbind at 1, M_bind at 1, sort_list at 1, set_list at 1. cbn [dicts lists next_list fetched slept].
  unfold mbind at 1, M_bind at 1, get_list at 1. cbn [dicts lists next_list fetched slept].
  rewrite fn_lookup_insert.
  rewrite (fn_lookup_insert_ne (lists s) (next_list s) items) by lia.
  fold sorted. set (s1 := mkState _ _ _ _ _).
  unfold mbind at 1, M_bind at 1.
  pose proof (dedupe_loop_walk (next_list s) sorted ∅ ∅ s1) as [H1 H2].
  destruct (for_each sorted _ _ s1) as [seen s2]. simpl in H1, H2.
  rewrite fn_lookup_insert_ne in H1 by lia. rewrite fn_lookup_insert in H1. simpl in H1.
  change (dedupe_walk (url_key chk s1) (title_key s1) sorted ∅ ∅) with kept in H1, H2.
  unfold mbind, M_bind, sort_list, set_list, mret, M_ret. simpl.
  rewrite fn_lookup_insert. by rewrite H1.
Qed.

End LoopWalk.

(** ** The deduplicator, by its output *)

Section DedupeProps.
Variable chk : str -> bool.

Lemma dedupe_keys_stable items s :
items < next_list s ->
let '(d, s') := normalize_and_dedupe chk items s in
(∀ r, url_key chk s' r = url_key chk s r) ∧
(∀ r, title_key s' r = title_key s r) ∧
(∀ r, published_at (dicts s' r) = published_at (dicts s r)).
Proof.
intros Hit. pose proof (normalize_and_dedupe_walk chk items s Hit) as H.
cbv zeta in H. destruct (normalize_and_dedupe chk items s) as [d s'].
destruct H as [_ H]. unfold url_key, title_key.
split_and!; intros r; rewrite H; by case_decide.
Qed.

(** X1: no two records of the list that [normalize_and_dedupe] returns
have the same canonical URL, no two the same canonical title, and no
record is in it twice. *)
Theorem dedupe_output_keys_distinct items s :
items < next_list s ->
let '(d, s') := normalize_and_dedupe chk items s in
NoDup (map (λ a, normalize_url chk (url a)) (read s' d)) ∧
NoDup (map (λ a, normalize_title (title a)) (read s' d)) ∧
NoDup (lists s' d).
Proof.
intros Hit. pose proof (normalize_and_dedupe_walk chk items s Hit) as H.
pose proof (dedupe_keys_stable items s Hit) as K.
cbv zeta in H. destruct (normalize_and_dedupe chk items s) as [d s'].
destruct H as [Hl _]. destruct K as (Ku & Kt & _).
set (sorted := sort_desc Z.ltb (λ r, date_key (dicts s r)) (lists s items)) in *.
destruct (dedupe_walk_NoDup (url_key chk s) (title_key s) sorted ∅ ∅) as [N1 N2].
assert (lists s' d ≡ₚ dedupe_walk (url_key chk s) (title_key s) sorted ∅ ∅) as Hp.
{ rewrite Hl. apply sort_desc_perm. }
unfold read. rewrite <- !list_fmap_compose.
assert (NoDup (url_key chk s <$> lists s' d)) as M1 by (by rewrite Hp).
assert (NoDup (title_key s <$> lists s' d)) as M2 by (by rewrite Hp).
split_and!.
- erewrite list_fmap_ext; [exact M1|]. intros i r _. simpl. apply Ku.
- erewrite list_fmap_ext; [exact M2|]. intros i r _. simpl. apply Kt.
- by apply NoDup_fmap_1 in M1.
Qed.

(** X2: every record of the input list is represented in the output of
[normalize_and_dedupe] by a record with the same canonical URL or the
same canonical title that was published no earlier (a missing
[published_at] counting as [datetime.min]): of several versions a most
recent one is kept. *)
Theorem dedupe_keeps_most_recent items s :
items < next_list s ->
let '(d, s') := normalize_and_dedupe chk items s in
∀ r, r ∈ lists s items ->
  ∃ k, k ∈ lists s' d ∧
       (normalize_url chk (url (dicts s k)) = normalize_url chk (url (dicts s r)) ∨
        normalize_title (title (dicts s k)) = normalize_title (title (dicts s r))) ∧
       (default datetime_min (published_at (dicts s r))
        <= default datetime_min (published_at (dicts s k)))%Z.
Proof.
intros Hit. pose proof (normalize_and_dedupe_walk chk items s Hit) as H.
cbv zeta in H. destruct (normalize_and_dedupe chk items s) as [d s'].
destruct H as [Hl _].
intros r Hr.
set (sorted := sort_desc Z.ltb (λ r, date_key (dicts s r)) (lists s items)) in *.
assert (r ∈ sorted) as Hrs by (unfold sorted; by rewrite sort_desc_perm).
pose proof (sort_desc_sorted Z.ltb (λ r, date_key (dicts s r)) Zltb_asym Zltb_not_trans
              (lists s items)) as Hs.
destruct (dedupe_walk_cover (url_key chk s) (title_key s) _ sorted ∅ ∅ r Hs Hrs)
  as [Hc|[Hc|(k & Hk & Hkey & Hrel)]]; [by apply not_elem_of_empty in Hc..|].
exists k. split_and!.
- rewrite Hl. by rewrite sort_desc_perm.
- exact Hkey.
- destruct Hrel as [->|Hrel]; [done|]. unfold not_below, date_key in Hrel.
  apply Z.ltb_ge in Hrel. exact Hrel.
Qed.

(** X3: the list that [normalize_and_dedupe] returns is ordered by
descending priority score and, among equal scores, by descending
[published_at]; each of its records carries as [priority_score] the
score of its title. *)
Theorem dedupe_output_ranked items s :
items < next_list s ->
let '(d, s') := normalize_and_dedupe chk items s in
StronglySorted ranks_before (read s' d) ∧
(∀ a, a ∈ read s' d -> priority_score a = Some (score_title (title a))).
Proof.
intros Hit. pose proof (normalize_and_dedupe_walk chk items s Hit) as H.
cbv zeta in H. destruct (normalize_and_dedupe chk items s) as [d s'].
destruct H as [Hl Hd]. split.
- unfold read. rewrite Hl.
  eapply StronglySorted_fmap;
    [|apply (sort_desc_sorted pair_ltb _ pair_ltb_asym pair_ltb_not_trans)].
  intros x y. unfold not_below, ranks_before, pair_ltb, rank_key, date_key. simpl. lia.
- intros a (r & -> & Hr)%list_elem_of_fmap.
  rewrite Hl, sort_desc_perm in Hr. rewrite Hd. by rewrite decide_True.
Qed.

(** X4: [normalize_and_dedupe] changes a record only by setting the
[priority_score] of the records it returns; the records it returns are
records of the input list, not more than it holds; it fetches nothing
and does not sleep. *)
Theorem dedupe_touches_only_scores items s :
items < next_list s ->
let '(d, s') := normalize_and_dedupe chk items s in
(∀ r, r ∈ lists s' d -> dicts s' r = scored (dicts s r)) ∧
(∀ r, r ∉ lists s' d -> dicts s' r = dicts s r) ∧
lists s' d ⊆ lists s items ∧
length (lists s' d) <= length (lists s items) ∧
fetched s' = fetched s ∧ slept s' = slept s.
Proof.
intros Hit. pose proof (normalize_and_dedupe_walk chk items s Hit) as H.
pose proof (normalize_and_dedupe_spec chk items s Hit) as G.
cbv zeta in H. destruct (normalize_and_dedupe chk items s) as [d s'].
destruct H as [Hl Hd]. destruct G as (_ & _ & Hf & Hsl & _ & _ & Hsub & _).
split_and!; try done.
- intros r Hr. rewrite Hl, sort_desc_perm in Hr. rewrite Hd. by rewrite decide_True.
- intros r Hr. rewrite Hl, sort_desc_perm in Hr. rewrite Hd. by rewrite decide_False.
- rewrite Hl, (Permutation_length (sort_desc_perm _ _ _)).
  etrans; [apply sublist_length, dedupe_walk_sublist|].
  by rewrite (Permutation_length (sort_desc_perm _ _ _)).
Qed.

End DedupeProps.

Lemma same_url_state_allocated : 0 < next_list same_url_state.
Proof. simpl. lia. Qed.

Lemma dedupe_output_keys_distinct_witness :
  0 < next_list same_url_state ∧
  (let '(d, s') := normalize_and_dedupe no_bracketed_hosts 0 same_url_state in
   NoDup (map (λ a, normalize_url no_bracketed_hosts (url a)) (read s' d)) ∧
   NoDup (map (λ a, normalize_title (title a)) (read s' d)) ∧
   NoDup (lists s' d)).
Proof.
  split; [exact same_url_state_allocated|].
  exact (dedupe_output_keys_distinct no_bracketed_hosts 0 same_url_state
           same_url_state_allocated).
Defined.

Lemma dedupe_keeps_most_recent_witness :
  0 < next_list same_url_state ∧
  (let '(d, s') := normalize_and_dedupe no_bracketed_hosts 0 same_url_state in
   ∀ r, r ∈ lists same_url_state 0 ->
     ∃ k, k ∈ lists s' d ∧
          (normalize_url no_bracketed_hosts (url (dicts same_url_state k))
             = normalize_url no_bracketed_hosts (url (dicts same_url_state r)) ∨
           normalize_title (title (dicts same_url_state k))
             = normalize_title (title (dicts same_url_state r))) ∧
          (default datetime_min (published_at (dicts same_url_state r))
           <= default datetime_min (published_at (dicts same_url_state k)))%Z).
Proof.
  split; [exact same_url_state_allocated|].
  exact (dedupe_keeps_most_recent no_bracketed_hosts 0 same_url_state
           same_url_state_allocated).
Defined.

Lemma dedupe_output_ranked_witness :
  0 < next_list ten_state ∧
  (let '(d, s') := normalize_and_dedupe no_bracketed_hosts 0 ten_state in
   StronglySorted ranks_before (read s' d) ∧
   (∀ a, a ∈ read s' d -> priority_score a = Some (score_title (title a)))).
Proof.
  assert (0 < next_list ten_state) as H by (simpl; lia).
  split; [exact H|].
  exact (dedupe_output_ranked no_bracketed_hosts 0 ten_state H).
Defined.

Lemma dedupe_touches_only_scores_witness :
  0 < next_list same_url_state ∧
  (let '(d, s') := normalize_and_dedupe no_bracketed_hosts 0 same_url_state in
   (∀ r, r ∈ lists s' d -> dicts s' r = scored (dicts same_url_state r)) ∧
   (∀ r, r ∉ lists s' d -> dicts s' r = dicts same_url_state r) ∧
   lists s' d ⊆ lists same_url_state 0 ∧
   length (lists s' d) <= length (lists same_url_state 0) ∧
   fetched s' = fetched same_url_state ∧ slept s' = slept same_url_state).
Proof.
  split; [exact same_url_state_allocated|].
  exact (dedupe_touches_only_scores no_bracketed_hosts 0 same_url_state
           same_url_state_allocated).
Defined.

(** ** The enricher, by its output *)

Section EnrichProps2.
Variable extract_result : nat -> str -> option str.


(** X5: the output of [enrich_with_text] holds records of the input list
in the order of the input list, and it holds every record of the input
whose content passes the threshold or whose description is not empty,
whatever extraction returns. *)
Theorem enrich_keeps_sure_records items min_chars s :
items < next_list s ->
let '(e, s') := enrich_with_text extract_result items min_chars s in
lists s' e `sublist_of` lists s items ∧
(∀ r, r ∈ lists s items ->
      long_enough min_chars (content (dicts s r)) = true ∨ description (dicts s r) ≠ [] ->
      r ∈ lists s' e).
Proof.
intros Hit.
pose proof (enrich_with_text_spec extract_result items min_chars s) as Hspec.
rewrite enrich_with_text_unfold in *. cbn [lists] in *.
rewrite fn_lookup_insert_ne in * by lia.
set (s0 := mkState _ _ _ _ _) in *.
destruct (enrich_loop_log extract_result min_chars (next_list s) (lists s items) s0)
  as (_ & H & _).
destruct Hspec as (_ & _ & Hsub & _). destruct (Hsub Hit) as [Hsub1 _].
split; [done|]. intros r Hr Hs. specialize (H r Hr Hs).
unfold s0 in H at 1. cbn [lists] in H. rewrite fn_lookup_insert in H. by rewrite drop_0 in H.
Qed.

(** X6: a record whose content fails the threshold, whose description is
empty and from whose URL extraction never returns a text above the
threshold is not in the output of [enrich_with_text]. *)
Theorem enrich_drops_short_content items min_chars s :
let '(e, s') := enrich_with_text extract_result items min_chars s in
∀ r, long_enough min_chars (content (dicts s r)) = false ->
     description (dicts s r) = [] ->
     extraction_too_short extract_result min_chars (url (dicts s r)) ->
     r ∉ lists s' e.
Proof.
rewrite enrich_with_text_unfold.
set (s0 := mkState _ _ _ _ _).
destruct (enrich_loop_log extract_result min_chars (next_list s) (lists s0 items) s0)
  as (_ & _ & H & _).
intros r Hc Hd He. specialize (H r Hc Hd He).
unfold s0 in H at 1. cbn [lists] in H. rewrite fn_lookup_insert in H. by rewrite drop_0 in H.
Qed.

(** X7: [enrich_with_text] changes no record outside its input list and
of a record nothing but [fulltext]; it changes no list allocated before
the call, the input list included, and it sleeps once for each record
of the input. *)
Theorem enrich_touches_only_fulltext items min_chars s :
items < next_list s ->
let '(e, s') := enrich_with_text extract_result items min_chars s in
(∀ r, r ∉ lists s items -> dicts s' r = dicts s r) ∧
(∀ r, title (dicts s' r) = title (dicts s r) ∧ url (dicts s' r) = url (dicts s r) ∧
      source (dicts s' r) = source (dicts s r) ∧
      published_at (dicts s' r) = published_at (dicts s r) ∧
      description (dicts s' r) = description (dicts s r) ∧
      content (dicts s' r) = content (dicts s r) ∧
      source_type (dicts s' r) = source_type (dicts s r) ∧
      priority_score (dicts s' r) = priority_score (dicts s r)) ∧
(∀ l, l < next_list s -> lists s' l = lists s l) ∧
¬ e < next_list s ∧
slept s' = length (lists s items) + slept s.
Proof.
intros Hit.
pose proof (enrich_with_text_spec extract_result items min_chars s) as Hspec.
rewrite enrich_with_text_unfold in *. cbn [lists] in *.
rewrite fn_lookup_insert_ne in * by lia.
set (s0 := mkState _ _ _ _ _) in *.
destruct (enrich_loop_log extract_result min_chars (next_list s) (lists s items) s0)
  as (_ & _ & _ & H).
destruct Hspec as (_ & _ & Hsub & Hl & Hd & _). destruct (Hsub Hit) as [_ Hsl].
split_and!; try done.
- intros r.
  destruct (retexted_fields _ _ (Hd r)) as (? & ? & ? & ? & ? & ? & ? & ?). done.
- intros l Hlt. apply Hl. lia.
- lia.
Qed.

End EnrichProps2.

Lemma enrich_keeps_sure_records_witness :
  0 < next_list same_url_state ∧
  (let '(e, s') := enrich_with_text no_extraction 0 500 same_url_state in
   lists s' e `sublist_of` lists same_url_state 0 ∧
   (∀ r, r ∈ lists same_url_state 0 ->
         long_enough 500 (content (dicts same_url_state r)) = true ∨
         description (dicts same_url_state r) ≠ [] ->
         r ∈ lists s' e)).
Proof.
  split; [exact same_url_state_allocated|].
  exact (enrich_keeps_sure_records no_extraction 0 500 same_url_state
           same_url_state_allocated).
Defined.

Lemma enrich_touches_only_fulltext_witness :
  0 < next_list same_url_state ∧
  slept (enrich_with_text no_extraction 0 500 same_url_state).2 = 2.
Proof.
  split; [exact same_url_state_allocated|].
  pose proof (enrich_touches_only_fulltext no_extraction 0 500 same_url_state
                same_url_state_allocated) as P.
  destruct (enrich_with_text no_extraction 0 500 same_url_state) as [e s'].
  destruct P as (_ & _ & _ & _ & P). exact P.
Defined.

Lemma enrich_drops_short_content_witness :
  let '(e, s') := enrich_with_text no_extraction 0 500 ten_state in 0 ∉ lists s' e.
Proof.
  pose proof (enrich_drops_short_content no_extraction 0 500 ten_state) as P.
  destruct (enrich_with_text no_extraction 0 500 ten_state) as [e s'].
  apply P; [reflexivity|reflexivity|]. intros n. exact I.
Defined.

(** ** The orchestrator, by its output *)

Lemma all_keys_dichotomy l :
  (∃ ks, all_keys l = Ok ks) ∨ all_keys l = Raise AttributeError.
Proof.
  induction l as [|a l [[ks IH]|IH]]; simpl.
  - left. by eexists.
  - unfold orchestrator_key. destruct (published_at a); [|by right].
    rewrite IH. left. by eexists.
  - unfold orchestrator_key. destruct (published_at a); [|by right].
    rewrite IH. by right.
Qed.

Lemma all_keys_Ok_dated l ks :
  all_keys l = Ok ks -> Forall (λ a, is_Some (published_at a)) l.
Proof.
  revert ks. induction l as [|a l IH]; intros ks; simpl; [constructor|].
  unfold orchestrator_key. destruct (published_at a) eqn:E; [|done].
  destruct (all_keys l) as [ks'|]; [|done]. intros _. constructor; [by eexists|by eapply IH].
Qed.


Lemma StronglySorted_Forall_and {A} (R : relation A) (P : A -> Prop) l :
  StronglySorted R l -> Forall P l -> StronglySorted (λ x y, R x y ∧ P y) l.
Proof.
  induction 1 as [|x l _ IH Hx]; intros Hl; [constructor|].
  apply Forall_cons in Hl as [_ Hl]. constructor; [by apply IH|].
  rewrite Forall_forall in *. auto.
Qed.

Section OrchestratorProps.
Variable chk : str -> bool.
Variable extract_result : nat -> str -> option str.

(** what a successful [select_articles] hands to the enricher *)
Lemma select_articles_inv articles max_articles s l s2 :
  select_articles chk articles max_articles s = Ok (l, s2) ->
  let '(d, s1) := normalize_and_dedupe chk articles s in
  let L := sort_desc Z.ltb (λ r, date_key (dicts s1 r)) (lists s1 d) in
  Forall (λ a, is_Some (published_at a)) (read s1 d) ∧
  dicts s2 = dicts s1 ∧ fetched s2 = fetched s1 ∧ slept s2 = slept s1 ∧
  next_list s1 <= next_list s2 ∧
  (d < next_list s1 -> l < next_list s2) ∧
  lists s2 l = if (max_articles <? len L)%Z then slice_to L max_articles else L.
Proof.
  unfold select_articles.
  destruct (normalize_and_dedupe chk articles s) as [d s1].
  destruct (all_keys (read s1 d)) as [ks|] eqn:Ek; [|done].
  apply all_keys_Ok_dated in Ek.
  unfold sort_list, set_list, new_list. cbn [dicts lists next_list fetched slept].
  rewrite fn_lookup_insert.
  destruct (_ <? _)%Z; intros [= <- <-]; simpl; rewrite fn_lookup_insert;
    split_and!; try done; lia.
Qed.




(** X10: a negative [max_articles] does not switch the limit off: the
slice [deduplicated[:max_articles]] then drops the last
[- max_articles] records of the date order, the oldest ones, and hands
the others to the enricher (none when that many are not there). *)
Theorem negative_max_drops_oldest articles max_articles s :
  articles < next_list s -> (max_articles < 0)%Z ->
  (∀ r, r ∈ lists s articles -> is_Some (published_at (dicts s r))) ->
  let '(d, s1) := normalize_and_dedupe chk articles s in
  let L := sort_desc Z.ltb (λ r, default datetime_min (published_at (dicts s1 r)))
                     (lists s1 d) in
  ∃ l s2, select_articles chk articles max_articles s = Ok (l, s2) ∧
          lists s2 l = take (length L - Z.to_nat (- max_articles)) L.
Proof.
  intros Hit Hmax Hdates.
  pose proof (normalize_and_dedupe_spec chk articles s Hit) as Hspec.
  pose proof (select_articles_inv articles max_articles s) as Hinv.
  unfold select_articles in *.
  destruct (normalize_and_dedupe chk articles s) as [d s1].
  destruct Hspec as (Hd & Hn & Hf & Hsl & Hitems & Hother & Hsub & Hdicts).
  destruct (all_keys_ok (read s1 d)) as [ks Hks].
  { unfold read. apply Forall_fmap, Forall_forall. intros r Hr. simpl.
    rewrite (rescored_date _ _ (Hdicts r)). by apply Hdates, Hsub. }
  rewrite Hks in *.
  unfold sort_list, set_list, new_list in *. cbn [dicts lists next_list fetched slept] in *.
  rewrite fn_lookup_insert in *. cbv zeta.
  change (λ r : ref, default datetime_min (published_at (dicts s1 r)))
    with (λ r : ref, date_key (dicts s1 r)).
  set (L := sort_desc Z.ltb (λ r, date_key (dicts s1 r)) (lists s1 d)) in *.
  assert ((max_articles <? len L)%Z = true) as -> by (apply Z.ltb_lt; unfold len; lia).
  eexists _, _. split; [done|]. simpl. rewrite fn_lookup_insert.
  unfold slice_to. assert ((0 <=? max_articles)%Z = false) as -> by (apply Z.leb_gt; lia).
  f_equal. unfold len. lia.
Qed.

(** X11: on an empty input list [process_articles] returns an empty
list for every [max_articles] and [min_chars]; it fetches nothing, does
not sleep and changes no record. *)
Theorem process_articles_empty_input articles max_articles min_chars s :
  articles < next_list s -> lists s articles = [] ->
  ∃ out s', process_articles chk extract_result articles max_articles min_chars s
              = Ok (out, s') ∧
            lists s' out = [] ∧ fetched s' = fetched s ∧ slept s' = slept s ∧
            dicts s' = dicts s.
Proof.
  intros Hit Hempty.
  unfold process_articles, select_articles, normalize_and_dedupe.
  unfold mbind at 1, M_bind at 1, new_list at 1.
  unfold mbind at 1, M_bind at 1, sort_list at 1, set_list at 1. cbn [dicts lists next_list fetched slept].
  unfold mbind at 1, M_bind at 1, get_list at 1. cbn [dicts lists next_list fetched slept].
  rewrite fn_lookup_insert.
  rewrite (fn_lookup_insert_ne (lists s) (next_list s) articles) by lia.
  rewrite Hempty. cbn [sort_desc foldr for_each].
  unfold mret, M_ret, mbind, M_bind, sort_list, set_list, read.
  cbn [dicts lists next_list fetched slept].
  rewrite (fn_lookup_insert_ne _ articles (next_list s)) by lia.
  rewrite !fn_lookup_insert. cbn [sort_desc foldr map all_keys app].
  assert (slice_to (@nil ref) max_articles = []) as Hslice.
  { unfold slice_to. by destruct (0 <=? max_articles)%Z; rewrite take_nil. }
  destruct (max_articles <? len [])%Z.
  - unfold new_list at 1. cbn [dicts lists next_list fetched slept]. rewrite Hslice.
    rewrite enrich_with_text_unfold. cbn [dicts lists next_list fetched slept].
    rewrite (fn_lookup_insert_ne _ (S (S (next_list s))) (S (next_list s))) by lia.
    rewrite fn_lookup_insert. cbn [for_each]. unfold mret, M_ret.
    cbn [snd dicts lists next_list fetched slept]. rewrite fn_lookup_insert.
    eexists _, _. split; [done|]. unfold new_list. simpl. by rewrite fn_lookup_insert.
  - rewrite enrich_with_text_unfold. cbn [dicts lists next_list fetched slept].
    rewrite (fn_lookup_insert_ne _ (S (next_list s)) (next_list s)) by lia.
    rewrite fn_lookup_insert. cbn [for_each]. unfold mret, M_ret.
    cbn [snd dicts lists next_list fetched slept]. rewrite fn_lookup_insert.
    eexists _, _. split; [done|]. unfold new_list. simpl. by rewrite fn_lookup_insert.
Qed.

End OrchestratorProps.


Lemma negative_max_drops_oldest_witness :
  0 < next_list ten_state ∧ (-3 < 0)%Z ∧
  (∀ r, r ∈ lists ten_state 0 -> is_Some (published_at (dicts ten_state r))) ∧
  ∃ l s2, select_articles no_bracketed_hosts 0 (-3) ten_state = Ok (l, s2) ∧
          lists s2 l = [9; 8; 7; 6; 5; 4; 3].
Proof.
  assert (0 < next_list ten_state) as H1 by (simpl; lia).
  assert (-3 < 0)%Z as H2 by lia.
  assert (∀ r, r ∈ lists ten_state 0 -> is_Some (published_at (dicts ten_state r))) as H3.
  { apply Forall_forall. simpl. repeat constructor; by eexists. }
  split; [exact H1|]. split; [exact H2|]. split; [exact H3|].
  pose proof (negative_max_drops_oldest no_bracketed_hosts 0 (-3) ten_state H1 H2 H3) as P.
  destruct (normalize_and_dedupe no_bracketed_hosts 0 ten_state) as [d s1] eqn:E.
  cbv zeta in P. destruct P as (l & s2 & Hsel & Hl).
  exists l, s2. split; [exact Hsel|]. rewrite Hl.
  assert (s1 = (normalize_and_dedupe no_bracketed_hosts 0 ten_state).2) as Hs1
    by (by rewrite E).
  assert (d = (normalize_and_dedupe no_bracketed_hosts 0 ten_state).1) as Hd
    by (by rewrite E).
  clear E Hsel Hl. subst s1 d. vm_compute. reflexivity.
Defined.

(** a store whose only list object is empty *)
Lemma process_articles_empty_input_witness :
  0 < next_list (store_of [] []) ∧ lists (store_of [] []) 0 = [] ∧
  ∃ out s', process_articles no_bracketed_hosts no_extraction 0 5 500 (store_of [] [])
              = Ok (out, s') ∧
            lists s' out = [] ∧ fetched s' = fetched (store_of [] []) ∧
            slept s' = slept (store_of [] []) ∧ dicts s' = dicts (store_of [] []).
Proof.
  assert (0 < next_list (store_of [] [])) as H1 by (simpl; lia).
  split; [exact H1|]. split; [reflexivity|].
  exact (process_articles_empty_input no_bracketed_hosts no_extraction 0 5 500
           (store_of [] []) H1 eq_refl).
Defined.

(** ** The canonicalizers, by what they cut *)

Lemma lstrip_app_stop p u c q :
  p c = false -> lstrip p (u ++ c :: q) = lstrip p u ++ c :: q.
Proof.
  intros Hc. induction u as [|x u IH]; simpl; [by rewrite Hc|].
  by destruct (p x).
Qed.

Lemma break_on_app_rest p s y :
  (break_on p s).2 ≠ [] ->
  break_on p (s ++ y) = ((break_on p s).1, (break_on p s).2 ++ y).
Proof.
  induction s as [|x s IH]; simpl; [done|].
  destruct (p x); [done|].
  destruct (break_on p s) as [a b]. simpl in *. intros Hb. by rewrite IH.
Qed.

Lemma break_on_app_starts p s y :
  starts_in p y ->
  break_on p (s ++ y) = ((break_on p s).1, (break_on p s).2 ++ y).
Proof.
  intros Hy. induction s as [|x s IH]; simpl.
  - destruct y as [|c y]; [done|]. simpl in *. by rewrite Hy.
  - destruct (p x); [done|]. rewrite IH. by destruct (break_on p s).
Qed.

Lemma break_on_app_free p s y :
  Forall (λ c, p c = false) s ->
  break_on p (s ++ y) = (s ++ (break_on p y).1, (break_on p y).2).
Proof.
  induction 1 as [|x s Hx _ IH]; simpl; [by destruct (break_on p y)|].
  by rewrite Hx, IH.
Qed.

Lemma cut_facts c :
  is_cut c ->
  is_c0_or_space c = false ∧ is_unsafe_byte c = false ∧ is_char ":"%char c = false ∧
  is_scheme_char c = false ∧ is_netloc_delim c = true ∧ c ≠ "/"%char.
Proof. by intros [-> | ->]. Qed.

Lemma split_scheme_app x c q :
  is_cut c ->
  split_scheme (x ++ c :: q) = ((split_scheme x).1, (split_scheme x).2 ++ c :: q).
Proof.
  intros Hc. destruct (cut_facts c Hc) as (_ & _ & Hcolon & Hsch & _).
  unfold split_scheme.
  pose proof (break_on_app (is_char ":"%char) x) as Happ.
  pose proof (break_on_free (is_char ":"%char) x) as Hfree.
  destruct (break_on (is_char ":"%char) x) as [a b] eqn:E.
  destruct b as [|b0 rest]; simpl in *.
  - rewrite app_nil_r in Happ. subst a.
    rewrite break_on_app_free by done. simpl. rewrite Hcolon.
    destruct (break_on (is_char ":"%char) q) as [a' b'] eqn:E'. simpl.
    assert (forallb is_scheme_char (x ++ c :: a') = false) as Hall.
    { apply not_true_is_false. intros H%Is_true_true%forallb_True.
      rewrite Forall_app, Forall_cons in H. destruct H as (_ & H & _).
      by rewrite Hsch in H. }
    destruct (x ++ c :: a') as [|c0 pre] eqn:Ex.
    { by destruct x. }
    destruct b' as [|b0 rest].
    + by destruct x.
    + simpl in Hall. rewrite Hall, andb_false_r. by destruct x.
  - rewrite break_on_app_rest by (by rewrite E). rewrite E. simpl.
    destruct a as [|c0 pre]; [done|].
    by destruct (is_alpha_ascii c0 && _).
Qed.

Lemma startswith_app_other R c q :
  c ≠ "/"%char -> startswith (R ++ c :: q) (lit "//") = startswith R (lit "//").
Proof.
  intros Hc. destruct R as [|a [|b R]]; simpl.
  - by rewrite bool_decide_false.
  - rewrite (bool_decide_false (c = "/"%char)) by done. by destruct (bool_decide (a = _)).
  - done.
Qed.

Lemma before_first_cut r c q :
  is_cut c -> has_char "?"%char r = false -> has_char "#"%char r = false ->
  before_first "?"%char (before_first "#"%char (r ++ c :: q)) = r.
Proof.
  intros [-> | ->] Hq Hf; unfold before_first.
  - rewrite (break_on_app_free (is_char "#"%char)) by (by apply has_char_false).
    simpl. destruct (break_on (is_char "#"%char) q) as [a b]. simpl.
    rewrite (break_on_unique (is_char "?"%char) r ("?"%char :: a)); [done| |done].
    by apply has_char_false.
  - rewrite (break_on_unique (is_char "#"%char) r ("#"%char :: q)); [|by apply has_char_false|done].
    simpl. by rewrite break_on_all by (by apply has_char_false).
Qed.

Lemma has_char_filter c P `{∀ x, Decision (P x)} (s : str) :
  has_char c s = false -> has_char c (filter P s) = false.
Proof.
  rewrite !has_char_false, !Forall_forall. intros Hs x [_ Hx]%list_elem_of_filter. auto.
Qed.

Lemma has_char_lstrip c p s : has_char c s = false -> has_char c (lstrip p s) = false.
Proof. apply has_char_suffix, lstrip_suffix. Qed.

Lemma split_scheme_suffix x : (split_scheme x).2 `suffix_of` x.
Proof.
  unfold split_scheme.
  pose proof (break_on_app (is_char ":"%char) x) as Happ.
  destruct (break_on (is_char ":"%char) x) as [[|c0 pre] [|b rest]]; simpl in *; try done.
  destruct (_ && _); simpl; [|done].
  exists (c0 :: pre ++ [b]). rewrite <- Happ. simpl. by rewrite <- app_assoc.
Qed.

Section QueryFragment.
Variable chk : str -> bool.

Lemma urlsplit_cleaned_eq u :
  urlsplit chk u =
    urlsplit_cleaned chk (filter (λ c, negb (is_unsafe_byte c)) (lstrip is_c0_or_space u)).
Proof. reflexivity. Qed.

Lemma urlsplit_cleaned_ignores_cut x c q :
  is_cut c -> has_char "?"%char x = false -> has_char "#"%char x = false ->
  urlsplit_cleaned chk (x ++ c :: q) = urlsplit_cleaned chk x.
Proof.
  intros Hc Hxq Hxf. destruct (cut_facts c Hc) as (Hc0 & Hun & _ & _ & Hdel & Hsl).
  unfold urlsplit_cleaned.
  rewrite split_scheme_app by done.
  pose proof (split_scheme_suffix x) as Hsuf.
  destruct (split_scheme x) as [sch R]. cbn [fst snd] in *.
  assert (has_char "?"%char R = false ∧ has_char "#"%char R = false) as [HRq HRf].
  { split; by eapply has_char_suffix. }
  rewrite startswith_app_other by done.
  destruct (startswith R (lit "//")) eqn:Hss.
  - apply startswith_prefix in Hss as [body ->].
    change (drop 2 ((lit "//" ++ body) ++ c :: q)) with (body ++ c :: q).
    change (drop 2 (lit "//" ++ body)) with body.
    rewrite break_on_app_starts by done.
    pose proof (break_on_app is_netloc_delim body) as Happ.
    destruct (break_on is_netloc_delim body) as [n r]. cbn [fst snd] in *.
    assert (has_char "?"%char r = false ∧ has_char "#"%char r = false) as [Hrq Hrf].
    { split; (eapply has_char_suffix; [|done]); exists (lit "//" ++ n); by rewrite <- Happ, app_assoc. }
    rewrite before_first_cut by done.
    by rewrite (before_first_id "#"%char r), (before_first_id "?"%char r).
  - rewrite before_first_cut by done.
    by rewrite (before_first_id "#"%char R), (before_first_id "?"%char R).
Qed.

Lemma urlsplit_ignores_cut u c q :
  is_cut c -> has_char "?"%char u = false -> has_char "#"%char u = false ->
  urlsplit chk (u ++ c :: q) = urlsplit chk u.
Proof.
  intros Hc Hq Hf. destruct (cut_facts c Hc) as (Hc0 & Hun & _).
  rewrite !urlsplit_cleaned_eq.
  rewrite lstrip_app_stop by done.
  rewrite (filter_app _ (lstrip is_c0_or_space u) (c :: q)).
  rewrite (filter_cons_True _ c) by (by rewrite Hun).
  apply urlsplit_cleaned_ignores_cut; [done|..]; by apply has_char_filter, has_char_lstrip.
Qed.

(** X12: what follows the first "?" or "#" of a URL does not reach its
canonical form: a query or a fragment put behind a string without
either, which the parser accepts, leaves the canonical URL unchanged. *)
Theorem normalize_url_ignores_query_and_fragment u c q r :
  is_cut c -> has_char "?"%char u = false -> has_char "#"%char u = false ->
  urlparse chk u = Ok r ->
  normalize_url chk (u ++ c :: q) = normalize_url chk u.
Proof.
  intros Hc Hq Hf Hp. unfold normalize_url, urlparse in *.
  rewrite urlsplit_ignores_cut by done.
  destruct (urlsplit chk u) as [[[sch n] p]|]; [|done].
  by destruct (_ && _).
Qed.

End QueryFragment.

(** ** The title canonicalizer and the publisher suffixes *)

Lemma endswith_app_self t suf : endswith (t ++ suf) suf = true.
Proof. apply endswith_suffix. by exists t. Qed.

Lemma endswith_other_last t s z s' z' :
  z ≠ z' -> endswith (t ++ s ++ [z]) (s' ++ [z']) = false.
Proof.
  intros Hz. unfold endswith. rewrite !reverse_app, !reverse_singleton. simpl.
  by rewrite bool_decide_false.
Qed.

Lemma slice_to_app_suffix {A} (t suf : list A) :
  suf ≠ [] -> slice_to (t ++ suf) (- len suf) = t.
Proof.
  intros Hs. unfold slice_to, len.
  assert (0 < length suf) by (destruct suf; [done|simpl; lia]).
  assert ((0 <=? - Z.of_nat (length suf))%Z = false) as -> by (apply Z.leb_gt; lia).
  rewrite length_app.
  replace (Z.to_nat (Z.of_nat (length t + length suf) + - Z.of_nat (length suf))) with (length t)
    by lia.
  apply take_app_length.
Qed.

Lemma strip_suffix_app t suf : suf ∈ suffixes -> strip_suffix suffixes (t ++ suf) = t.
Proof.
  unfold suffixes. cbn [map].
  change (lit " - The Verge") with (lit " - The Verg" ++ ["e"%char]).
  change (lit " | TechCrunch") with (lit " | TechCrunc" ++ ["h"%char]).
  change (lit " | Ars Technica") with (lit " | Ars Technic" ++ ["a"%char]).
  change (lit " | Wired") with (lit " | Wire" ++ ["d"%char]).
  change (lit " | Engadget") with (lit " | Engadge" ++ ["t"%char]).
  intros Hin. repeat (apply elem_of_cons in Hin as [->|Hin]); [..|by apply elem_of_nil in Hin];
    cbn [strip_suffix];
    rewrite ?endswith_other_last by done;
    rewrite endswith_app_self; by apply slice_to_app_suffix.
Qed.

(** X13: a title that ends with one of the five publisher suffixes has
the canonical form of the title without it, lowercased and stripped. *)
Theorem normalize_title_strips_publisher_suffix t suf :
  suf ∈ suffixes -> normalize_title (t ++ suf) = strip (lower t).
Proof. intros Hin. unfold normalize_title. by rewrite strip_suffix_app. Qed.

Lemma normalize_url_ignores_query_and_fragment_witness :
  is_cut "?"%char ∧
  has_char "?"%char (lit "https://example.com/a") = false ∧
  has_char "#"%char (lit "https://example.com/a") = false ∧
  urlparse no_bracketed_hosts (lit "https://example.com/a")
    = Ok (lit "https", lit "example.com", lit "/a") ∧
  normalize_url no_bracketed_hosts (lit "https://example.com/a" ++ "?"%char :: lit "utm=1")
    = normalize_url no_bracketed_hosts (lit "https://example.com/a").
Proof.
  assert (is_cut "?"%char) as H1 by (by left).
  split; [exact H1|]. split; [reflexivity|]. split; [reflexivity|]. split; [reflexivity|].
  exact (normalize_url_ignores_query_and_fragment no_bracketed_hosts
           (lit "https://example.com/a") "?"%char (lit "utm=1")
           (lit "https", lit "example.com", lit "/a") H1 eq_refl eq_refl eq_refl).
Defined.

Lemma normalize_title_strips_publisher_suffix_witness :
  lit " | Wired" ∈ suffixes ∧
  normalize_title (lit "Big News" ++ lit " | Wired") = strip (lower (lit "Big News")).
Proof.
  assert (lit " | Wired" ∈ suffixes) as H.
  { apply (list_elem_of_lookup_2 _ 3). reflexivity. }
  split; [exact H|].
  exact (normalize_title_strips_publisher_suffix (lit "Big News") (lit " | Wired") H).
Defined.

(** ** Scores *)

Lemma priority_keywords_split :
  ∃ D : list str,
    priority_keywords ≡ₚ lit "trade" :: D ∧ NoDup D ∧
    (∀ y, y ∈ D <-> y ∈ priority_keywords) ∧
    lit "AI" ∈ D ∧ length D = 28.
Proof.
  exists (remove_dups priority_keywords). split_and!.
  - assert (∃ l1 l2, priority_keywords = l1 ++ lit "trade" :: l2 ∧
                     remove_dups priority_keywords = l1 ++ l2) as (l1 & l2 & -> & ->).
    { eexists (take 11 priority_keywords), (drop 12 priority_keywords). by vm_compute. }
    by rewrite Permutation_middle.
  - apply NoDup_remove_dups.
  - intros y. apply elem_of_remove_dups.
  - apply (list_elem_of_lookup_2 _ 14). vm_compute. reflexivity.
  - vm_compute. reflexivity.
Qed.

Lemma length_remove_dups_NoDup `{EqDecision A} (l d : list A) :
  NoDup d -> (∀ y, y ∈ l <-> y ∈ d) -> length (remove_dups l) = length d.
Proof.
  intros Hd Hiff. apply Permutation_length, NoDup_Permutation; [apply NoDup_remove_dups|done|].
  intros y. by rewrite elem_of_remove_dups.
Qed.

Lemma distinct_matches_length (P : str -> Prop) `{∀ x, Decision (P x)} (D : list str) :
  NoDup D -> (∀ y, y ∈ D <-> y ∈ priority_keywords) ->
  length (remove_dups (filter P priority_keywords)) = length (filter P D).
Proof.
  intros HD Hiff. apply length_remove_dups_NoDup; [by apply NoDup_filter|].
  intros y. rewrite !list_elem_of_filter. by rewrite Hiff.
Qed.

Lemma score_title_split t :
  score_title t =
    (distinct_keyword_matches t + if contains (lit "trade") (lower t) then 1 else 0)%Z.
Proof.
  destruct priority_keywords_split as (D & Hperm & HD & Hiff & HAI & Hlen).
  unfold score_title, count_keywords, distinct_keyword_matches, len.
  set (P := λ keyword : str, Is_true (contains keyword (lower t))).
  rewrite (distinct_matches_length P D HD Hiff).
  rewrite (Permutation_length (filter_Permutation P _ _ Hperm)), filter_cons.
  destruct (decide (P (lit "trade"))) as [Ht|Ht]; unfold P in Ht.
  - apply Is_true_true in Ht. rewrite Ht. cbn [length]. lia.
  - apply Is_true_false in Ht. rewrite Ht. lia.
Qed.

Lemma distinct_keyword_matches_bound t : (0 <= distinct_keyword_matches t <= 27)%Z.
Proof.
  destruct priority_keywords_split as (D & Hperm & HD & Hiff & HAI & Hlen).
  unfold distinct_keyword_matches, len.
  set (P := λ keyword : str, Is_true (contains keyword (lower t))).
  rewrite (distinct_matches_length P D HD Hiff).
  split; [lia|].
  assert (¬ P (lit "AI")) as Hai by (unfold P; rewrite keyword_AI_never_in_lower; exact id).
  pose proof (length_filter_lt P D (lit "AI") HAI Hai) as Hlt.
  unfold str in *. lia.
Qed.

(** X14: the priority score of a title is the number of distinct
    vocabulary keywords that occur in the lowercased title, plus one when
    "trade" is among them; at most 27 distinct keywords can occur, "AI"
    never being one. *)
Theorem score_counts_trade_twice (t : str) :
  score_title t =
    (distinct_keyword_matches t + if contains (lit "trade") (lower t) then 1 else 0)%Z ∧
  (0 <= distinct_keyword_matches t <= 27)%Z.
Proof.
  split.
  - apply score_title_split.
  - apply distinct_keyword_matches_bound.
Qed.

(** X15: a title in which at least three distinct keywords occur scores
    strictly higher than a title in which at most one occurs. *)
Theorem three_matches_outscore_one (t1 t3 : str) :
  (distinct_keyword_matches t1 <= 1)%Z -> (3 <= distinct_keyword_matches t3)%Z ->
  (score_title t1 < score_title t3)%Z.
Proof.
  intros H1 H3.
  rewrite (score_title_split t1), (score_title_split t3).
  repeat destruct (contains _ _); lia.
Qed.

Lemma startswith_app s sub b : startswith s sub = true -> startswith (s ++ b) sub = true.
Proof.
  rewrite !startswith_prefix. intros [k ->]. exists (k ++ b). by rewrite app_assoc.
Qed.

Lemma contains_app_r sub s b : contains sub s = true -> contains sub (s ++ b) = true.
Proof.
  induction s as [|c s IH]; simpl.
  - rewrite orb_false_r. intros H. destruct sub; [by destruct b|done].
  - rewrite !orb_true_iff. intros [H|H]; [left|right; auto].
    by apply (startswith_app (c :: s)).
Qed.

Lemma contains_app_l sub a s : contains sub s = true -> contains sub (a ++ s) = true.
Proof.
  intros H. induction a as [|c a IH]; simpl; [done|]. rewrite IH. apply orb_true_r.
Qed.

Lemma length_filter_mono {A} (P Q : A -> Prop)
    `{∀ x, Decision (P x)} `{∀ x, Decision (Q x)} (l : list A) :
  (∀ x, P x -> Q x) -> length (filter P l) <= length (filter Q l).
Proof.
  intros HPQ. induction l as [|x l IH]; [done|].
  rewrite !filter_cons. destruct (decide (P x)) as [HP|HP].
  - rewrite decide_True by auto. simpl. lia.
  - destruct (decide (Q x)); simpl; lia.
Qed.

(** X16: text put in front of or behind a title never lowers its score,
    and the score does not depend on the case of the title. *)
Theorem score_grows_with_title (a t b : str) :
  (score_title t <= score_title (a ++ t ++ b))%Z ∧
  score_title (lower t) = score_title t.
Proof.
  unfold score_title, count_keywords, len. split.
  - apply inj_le, length_filter_mono. intros k Hk%Is_true_true. apply Is_true_true.
    unfold lower in *. rewrite !map_app. by apply contains_app_l, contains_app_r.
  - by rewrite (lower_fixed (lower t)) by apply lower_not_upper.
Qed.

Lemma three_matches_outscore_one_witness :
  (distinct_keyword_matches (lit "Local story three") <= 1)%Z ∧
  (3 <= distinct_keyword_matches (lit "Election crisis in the senate"))%Z ∧
  (score_title (lit "Local story three")
   < score_title (lit "Election crisis in the senate"))%Z.
Proof.
  assert (distinct_keyword_matches (lit "Local story three") <= 1)%Z as H1 by (by vm_compute).
  assert (3 <= distinct_keyword_matches (lit "Election crisis in the senate"))%Z as H3
    by (by vm_compute).
  split; [exact H1|]. split; [exact H3|].
  exact (three_matches_outscore_one _ _ H1 H3).
Defined.

(** ** The NewsAPI adapter, by its output *)

Lemma py_get_raises v key dflt e : Adapter.py_get v key dflt = Raise e -> e = AttributeError.
Proof. destruct v; simpl; congruence. Qed.

Lemma py_strip_inv v t :
  Adapter.py_strip v = Ok t -> strip t = t.
Proof. destruct v; simpl; try done. intros [= <-]. apply strip_idemp. Qed.

Lemma py_strip_raises v e : Adapter.py_strip v = Raise e -> e = AttributeError.
Proof. destruct v; simpl; congruence. Qed.

Lemma py_iter_raises v e : Adapter.py_iter v = Raise e -> e = TypeError.
Proof. destruct v; simpl; congruence. Qed.

Section AdapterProps.
Variable fromisoformat : str -> option Z.
Variable now : Z.

Lemma parse_published_at_raises article e :
Adapter.parse_published_at fromisoformat now article = Raise e -> e = AttributeError.
Proof.
unfold Adapter.parse_published_at.
destruct (Adapter.py_get article "publishedAt" Adapter.JNull) as [p|e'] eqn:E; simpl.
- destruct (Adapter.py_truth p); [|done]. destruct p; congruence.
- intros [= <-]. by eapply py_get_raises.
Qed.

Lemma build_article_inv article :
match Adapter.build_article fromisoformat now article with
| Ok a =>
    Adapter.f_source_type a = lit "newsapi" ∧
    strip (Adapter.f_title a) = Adapter.f_title a ∧
    strip (Adapter.f_description a) = Adapter.f_description a ∧
    strip (Adapter.f_content a) = Adapter.f_content a
| Raise e => e = AttributeError
end.
Proof.
unfold Adapter.build_article.
destruct (Adapter.parse_published_at _ _ _) as [p|e] eqn:E0; simpl;
  [|by eapply parse_published_at_raises].
destruct (Adapter.py_get article "title" _) as [t|e] eqn:E1; simpl; [|by eapply py_get_raises].
destruct (Adapter.py_strip t) as [t'|e] eqn:E2; simpl; [|by eapply py_strip_raises].
destruct (Adapter.py_get article "url" _) as [u|e] eqn:E3; simpl; [|by eapply py_get_raises].
destruct (Adapter.py_get article "source" _) as [src|e] eqn:E4; simpl; [|by eapply py_get_raises].
destruct (Adapter.py_get src "name" _) as [name|e] eqn:E5; simpl; [|by eapply py_get_raises].
destruct (Adapter.py_get article "description" _) as [d|e] eqn:E6; simpl; [|by eapply py_get_raises].
destruct (Adapter.py_strip d) as [d'|e] eqn:E7; simpl; [|by eapply py_strip_raises].
destruct (Adapter.py_get article "content" _) as [c|e] eqn:E8; simpl; [|by eapply py_get_raises].
destruct (Adapter.py_strip c) as [c'|e] eqn:E9; simpl; [|by eapply py_strip_raises].
split_and!; [done|by eapply py_strip_inv..].
Qed.

Lemma map_result_inv {A B} (f : A -> result B) (P : B -> Prop) (Q : exn -> Prop) l :
(∀ x, match f x with Ok y => P y | Raise e => Q e end) ->
match Adapter.map_result f l with
| Ok ys => Forall P ys ∧ length ys = length l
| Raise e => Q e
end.
Proof.
intros Hf. induction l as [|x l IH]; simpl; [by split|].
specialize (Hf x). destruct (f x) as [y|e]; simpl; [|done].
destruct (Adapter.map_result f l) as [ys|e]; simpl; [|done].
destruct IH as [IH1 IH2]. split; [by constructor|]. simpl. by rewrite IH2.
Qed.

(** X17: whatever the reply, [fetch_newsapi_articles] either returns a
list of records that all have [source_type] "newsapi" and a title, a
description and a content without leading or trailing whitespace, or
it raises [AttributeError] or [TypeError]: the payload had an unexpected
shape; no other exception leaves it. *)
Theorem fetch_newsapi_articles_output key reply :
match Adapter.fetch_newsapi_articles fromisoformat now key reply with
| Ok l =>
    Forall (λ a, Adapter.f_source_type a = lit "newsapi" ∧
                 strip (Adapter.f_title a) = Adapter.f_title a ∧
                 strip (Adapter.f_description a) = Adapter.f_description a ∧
                 strip (Adapter.f_content a) = Adapter.f_content a) l
| Raise e => e = AttributeError ∨ e = TypeError
end.
Proof.
unfold Adapter.fetch_newsapi_articles.
destruct (negb (truthy key)); [done|].
destruct reply as [|status [data|]]; [done| |by destruct (_ && _)].
destruct (_ && _); [done|].
destruct (Adapter.py_get data "status" _) as [st|e] eqn:E1; simpl;
  [|left; by eapply py_get_raises].
destruct st; try done. case_bool_decide; [|done].
destruct (Adapter.py_get data "articles" _) as [arts|e] eqn:E2; simpl;
  [|left; by eapply py_get_raises].
destruct (Adapter.py_iter arts) as [items|e] eqn:E3; simpl;
  [|right; by eapply py_iter_raises].
pose proof (map_result_inv (Adapter.build_article fromisoformat now) _
              (λ e, e = AttributeError) items build_article_inv) as Hall.
destruct (Adapter.map_result _ items) as [ys|e]; [by destruct Hall|by left].
Qed.

End AdapterProps.

Section NytProps.
Variable fromisoformat : str -> option Z.
Variable now : Z.




End NytProps.

(** ** The list of approved sources *)

Lemma split_no_sep sep s : has_char sep s = false -> split sep s = [s].
Proof.
  unfold has_char. induction s as [|c s IH]; simpl; [done|].
  intros [Hc Hs]%orb_false_iff. rewrite Hc. by rewrite IH.
Qed.

Lemma split_app sep a b :
  has_char sep a = false -> split sep (a ++ sep :: b) = a :: split sep b.
Proof.
  unfold has_char. induction a as [|c a IH]; simpl.
  - by rewrite bool_decide_true.
  - intros [Hc Hs]%orb_false_iff. rewrite Hc. by rewrite IH.
Qed.

Lemma split_fields_free sep s : Forall (λ x, has_char sep x = false) (split sep s).
Proof.
  induction s as [|c s IH]; simpl; [by repeat constructor|].
  case_bool_decide as Hc.
  - by constructor.
  - destruct (split sep s) as [|field fields]; [by repeat constructor; simpl; rewrite bool_decide_false|].
    apply Forall_cons in IH as [H1 H2]. constructor; [|done].
    unfold has_char in *. simpl. by rewrite bool_decide_false.
Qed.

Lemma split_join sep l :
  l ≠ [] -> Forall (λ x, has_char sep x = false) l -> split sep (join [sep] l) = l.
Proof.
  induction l as [|x l IH]; [done|]. intros _ [Hx Hl]%Forall_cons.
  destruct l as [|y l]; simpl.
  - by apply split_no_sep.
  - rewrite split_app by done. f_equal. by apply IH.
Qed.

Lemma has_char_strip c s : has_char c s = false -> has_char c (strip s) = false.
Proof.
  rewrite !has_char_false, !Forall_forall. intros H x Hx%strip_elem. auto.
Qed.

Lemma join_nil_inv sep l : Forall (λ x, x ≠ []) l -> join sep l = [] -> l = [].
Proof.
  destruct l as [|x [|y l]]; simpl; [done|..].
  - intros [Hx _]%Forall_cons. congruence.
  - intros [Hx _]%Forall_cons E. by destruct x.
Qed.

Lemma split_elem sep s y c : y ∈ split sep s -> c ∈ y -> c ∈ s.
Proof.
  revert y. induction s as [|x s IH]; intros y; simpl.
  - intros ->%list_elem_of_singleton. by intros ?%elem_of_nil.
  - case_bool_decide as Hx.
    + intros [->|Hy]%elem_of_cons; [by intros ?%elem_of_nil|].
      intros Hc. right. by eapply IH.
    + destruct (split sep s) as [|field fields] eqn:E.
      * intros ->%list_elem_of_singleton. intros ->%list_elem_of_singleton. left.
      * intros [->|Hy]%elem_of_cons.
        -- intros [->|Hc]%elem_of_cons; [left|right]. apply (IH field); [left|done].
        -- intros Hc. right. apply (IH y); [by right|done].
Qed.

Lemma filter_none {A} (P : A -> Prop) `{∀ x, Decision (P x)} l :
  (∀ x, x ∈ l -> ¬ P x) -> filter P l = [].
Proof.
  induction l as [|x l IH]; [done|]. intros Hl.
  rewrite filter_cons_False by (apply Hl; left). apply IH. intros y Hy. apply Hl. by right.
Qed.

Lemma lstrip_all p s : Forall (λ c, p c = true) s -> lstrip p s = [].
Proof. induction 1 as [|c s Hc _ IH]; simpl; [done|]. by rewrite Hc. Qed.

Lemma parse_approved_sources_entries sources_str :
  Forall source_id (_parse_approved_sources sources_str).
Proof.
  unfold _parse_approved_sources.
  destruct (negb (truthy sources_str)); [constructor|].
  apply Forall_fmap, Forall_forall. intros x [Hx Hin]%list_elem_of_filter.
  pose proof (split_fields_free ","%char sources_str) as Hfree.
  rewrite Forall_forall in Hfree. simpl. split_and!.
  - by apply truthy_true, Is_true_true.
  - apply strip_idemp.
  - by apply has_char_strip, Hfree.
Qed.

(** X20: every entry of the parsed [APPROVED_SOURCES] is non-empty, has
    no leading or trailing whitespace and contains no comma; a string
    that holds only commas and whitespace gives the empty list, as the
    empty string does. *)
Theorem parse_approved_sources_clean (sources_str : str) :
  Forall source_id (_parse_approved_sources sources_str) ∧
  (Forall (λ c, c = ","%char ∨ is_space c = true) sources_str ->
   _parse_approved_sources sources_str = []).
Proof.
  split; [apply parse_approved_sources_entries|].
  intros Hall. unfold _parse_approved_sources.
  destruct (negb (truthy sources_str)); [done|].
  rewrite filter_none; [done|].
  pose proof (split_fields_free ","%char sources_str) as Hfree.
  rewrite Forall_forall in Hall. rewrite Forall_forall in Hfree. intros y Hy Ht.
  apply Is_true_true, truthy_true in Ht. apply Ht.
  unfold strip. rewrite lstrip_all; [done|].
  apply Forall_forall. intros c Hc.
  destruct (Hall c (split_elem _ _ _ _ Hy Hc)) as [->|Hsp]; [|done].
  exfalso. specialize (Hfree y Hy). apply has_char_false in Hfree.
  rewrite Forall_forall in Hfree. specialize (Hfree _ Hc).
  unfold is_char in Hfree. by rewrite bool_decide_true in Hfree.
Qed.

Lemma parse_approved_sources_of_join l :
  Forall source_id l -> _parse_approved_sources (join (lit ",") l) = l.
Proof.
  intros Hl. unfold _parse_approved_sources.
  destruct (truthy (join (lit ",") l)) eqn:E; simpl.
  - assert (l ≠ []) as Hne by (intros ->; done).
    change (lit ",") with [","%char]. rewrite split_join; [|done|].
    2:{ eapply Forall_impl; [exact Hl|]. by intros x (_ & _ & ?). }
    rewrite filter_fixed.
    + rewrite <- (list_fmap_id l) at 2. apply Forall_fmap_ext.
      eapply Forall_impl; [exact Hl|]. by intros x (_ & ? & _).
    + eapply Forall_impl; [exact Hl|]. intros x (Hx & -> & _).
      by apply Is_true_true, truthy_true.
  - symmetry. apply (join_nil_inv (lit ",")).
    + eapply Forall_impl; [exact Hl|]. by intros x (? & _).
    + apply dec_stable. intros Hj. apply truthy_true in Hj. congruence.
Qed.

(** X21: the [sources] parameter that the NewsAPI adapter sends, the
    parsed list joined with commas, parses to the same list again; so does
    every list of non-empty, stripped, comma-free entries. *)
Theorem parse_approved_sources_round_trip (sources_str : str) (l : list str) :
  _parse_approved_sources (join (lit ",") (_parse_approved_sources sources_str))
    = _parse_approved_sources sources_str ∧
  (Forall source_id l -> _parse_approved_sources (join (lit ",") l) = l).
Proof.
  split; [|apply parse_approved_sources_of_join].
  apply parse_approved_sources_of_join.
  apply parse_approved_sources_entries.
Qed.

Lemma parse_approved_sources_round_trip_witness :
  _parse_approved_sources (lit " npr, bbc-news ,,fox-news")
    = [lit "npr"; lit "bbc-news"; lit "fox-news"] ∧
  Forall source_id [lit "npr"; lit "bbc-news"] ∧
  _parse_approved_sources (join (lit ",") [lit "npr"; lit "bbc-news"])
    = [lit "npr"; lit "bbc-news"].
Proof.
  split; [reflexivity|].
  assert (Forall source_id [lit "npr"; lit "bbc-news"]) as H.
  { repeat constructor; done. }
  split; [exact H|].
  destruct (parse_approved_sources_round_trip [] [lit "npr"; lit "bbc-news"]) as [_ P].
  exact (P H).
Defined.

(** ** The sections of the email *)

(** the dictionary during the loop: the four keys, each with its list *)
Lemma categorize_item_step (f : str -> list summarized) x :
  categorize_item (map (λ k, (k, f k)) section_names) x =
    map (λ k, (k, f k ++ if decide (section_of x = k) then [x] else [])) section_names.
Proof.
  unfold categorize_item, section_of, section_names.
  destruct (any_in chip_keywords _); [|destruct (any_in policy_keywords _);
    [|destruct (any_in big_model_keywords _)]];
    cbn [map append_to];
    repeat (first [rewrite decide_True by done | rewrite decide_False by done]);
    by rewrite ?app_nil_r.
Qed.

Lemma categorize_loop (f : str -> list summarized) xs :
  foldl categorize_item (map (λ k, (k, f k)) section_names) xs =
    map (λ k, (k, f k ++ filter (λ x, section_of x = k) xs)) section_names.
Proof.
  revert f. induction xs as [|x xs IH]; intros f; cbn [foldl].
  - apply map_ext. intros k. by rewrite filter_nil, app_nil_r.
  - rewrite categorize_item_step, IH. apply map_ext. intros k.
    rewrite <- app_assoc. f_equal. rewrite filter_cons. by destruct (decide (section_of x = k)).
Qed.

Lemma section_of_named x : section_of x ∈ section_names.
Proof.
  unfold section_of, section_names.
  repeat (destruct (any_in _ _); [set_solver|]). set_solver.
Qed.

Lemma sections_cover (xs : list summarized) :
  concat (map (λ k, filter (λ x, section_of x = k) xs) section_names) ≡ₚ xs.
Proof.
  induction xs as [|x xs IH]; [done|].
  pose proof (section_of_named x) as Hx. unfold section_names in *. cbn [map concat] in *.
  rewrite !filter_cons, app_nil_r in *.
  repeat (apply elem_of_cons in Hx as [Hx|Hx]); [..|by apply elem_of_nil in Hx];
    rewrite Hx;
    repeat (first [rewrite decide_True by done | rewrite decide_False by done]);
    rewrite <- IH at 5; simpl; rewrite ?Permutation_middle; done.
Qed.

Lemma concat_filter_nonempty {K A} (kvs : list (K * list A)) :
  concat (map snd (filter (λ kv, kv.2 ≠ []) kvs)) = concat (map snd kvs).
Proof.
  induction kvs as [|[k v] kvs IH]; [done|].
  rewrite filter_cons. destruct (decide ((k, v).2 ≠ [])) as [Hv|Hv]; simpl in *.
  - by rewrite IH.
  - apply dec_stable in Hv. by rewrite IH, Hv.
Qed.

Lemma categorize_articles_eq articles :
  categorize_articles articles =
    filter (λ kv, kv.2 ≠ [])
           (map (λ k, (k, filter (λ x, section_of x = k) articles)) section_names).
Proof.
  unfold categorize_articles. cbv zeta. f_equal.
  exact (categorize_loop (λ _, []) articles).
Qed.

Lemma section_names_NoDup : NoDup section_names.
Proof.
  unfold section_names. repeat constructor; rewrite ?elem_of_cons, elem_of_nil; intros H;
    repeat (destruct H as [H|H]; [discriminate H|]); exact H.
Qed.

(** X22: the sections [categorize_articles] returns partition the input:
    together they hold the articles of the input, each once; no section
    is empty; each holds its articles in input order; and the sections
    come in the order chips, policy, models, general, each at most once.
    Section [k] holds the articles that [k] is the section of. *)
Theorem categorize_articles_partition (articles : list summarized) :
  concat (map snd (categorize_articles articles)) ≡ₚ articles ∧
  Forall (λ kv, kv.2 ≠ [] ∧ kv.2 = filter (λ x, section_of x = kv.1) articles)
         (categorize_articles articles) ∧
  map fst (categorize_articles articles) `sublist_of` section_names ∧
  NoDup (map fst (categorize_articles articles)).
Proof.
  rewrite categorize_articles_eq.
  set (all := map (λ k, (k, filter (λ x, section_of x = k) articles)) section_names).
  assert (map fst all = section_names) as Hfst.
  { unfold all. rewrite <- list_fmap_compose. apply list_fmap_id. }
  assert (map fst (filter (λ kv, kv.2 ≠ []) all) `sublist_of` section_names) as Hsub.
  { rewrite <- Hfst. apply (fmap_sublist fst), sublist_filter. }
  split_and!.
  - rewrite concat_filter_nonempty. unfold all. rewrite <- list_fmap_compose.
    apply sections_cover.
  - apply Forall_forall. intros [k v] [Hv Hin]%list_elem_of_filter. split; [done|].
    unfold all in Hin. apply list_elem_of_fmap in Hin as (k' & [= -> ->] & _). done.
  - exact Hsub.
  - eapply sublist_NoDup; [apply section_names_NoDup|exact Hsub].
Qed.

(** X23: an article is listed in a section exactly when it is an article
    of the input and the section is the first of chips, policy and models
    one of whose keywords occurs in its lowercased title and summary, or
    the general section when none does: a chip keyword wins over a policy
    keyword, and a keyword matches inside a word. *)
Theorem categorize_articles_membership (articles : list summarized) (k : str)
    (x : summarized) :
  ((∃ v, (k, v) ∈ categorize_articles articles ∧ x ∈ v) <->
   (x ∈ articles ∧ section_of x = k)) ∧
  section_of (mkSummarized (rss_article "Senate passes chip law" "" 0) None)
    = lit "Chips & Hardware" ∧
  section_of (mkSummarized (rss_article "Flaws in the plan" "" 0) None)
    = lit "Policy & Regulation".
Proof.
  split; [|by vm_compute]. rewrite categorize_articles_eq. split.
  - intros (v & [Hv Hin]%list_elem_of_filter & Hx).
    apply list_elem_of_fmap in Hin as (k' & [= -> ->] & _).
    by apply list_elem_of_filter in Hx as [Hx1 Hx2].
  - intros [Hx Hk]. exists (filter (λ y, section_of y = k) articles).
    assert (x ∈ filter (λ y, section_of y = k) articles) as Hin
      by (by apply list_elem_of_filter).
    split; [|done]. apply list_elem_of_filter. split.
    + simpl. intros E. rewrite E in Hin. by apply elem_of_nil in Hin.
    + apply list_elem_of_fmap. exists k. split; [done|].
      rewrite <- Hk. apply section_of_named.
Qed.

